(** * SynthSR command-line prediction script

    A shallow embedding of [scripts/predict_command_line.py]: the volume
    arithmetic the script does itself (CT clipping, intensity normalisation,
    padding to a multiple of 32, test-time flipping, rescaling, clipping and
    cropping of the prediction), the dispatch on the input path, the
    construction of the output paths, and the order in which the script
    calls into [os], [tensorflow], [ext.neuron] and [ext.lab2im].

    In the run of the script intensities are exact rationals kept in lowest
    terms: no rounding, no infinities and no nan.  The three steps whose
    outcome depends on them, CT clipping, normalisation and postprocessing,
    are given a second time on [Fp.value], the rationals with the
    infinities and nan of floating point; on volumes of numbers the two
    agree.  The functions of [ext.lab2im] and [ext.neuron] are not part of
    the script; they are the fields of the class [Externals]. *)

From Stdlib Require Import ZArith QArith Qabs Qround Lqa Lia Ascii.
From stdpp Require Import base list strings gmap.

Local Open Scope Q_scope.
Local Open Scope list_scope.

(** ** Intensities *)

Module Num.

(** [x + y], [x - y], [x * y] and [x / y] on array entries; [Qred] keeps
    the representation canonical, so that equal numbers are equal terms. *)
Definition add (x y : Q) : Q := Qred (x + y).
Definition sub (x y : Q) : Q := Qred (x - y).
Definition mul (x y : Q) : Q := Qred (x * y).
Definition div (x y : Q) : Q := Qred (x / y).

(** [x < y] and [x > y] as the boolean masks of [im < 0] and [im > 80]. *)
Definition ltb (x y : Q) : bool := negb (Qle_bool y x).
Definition gtb (x y : Q) : bool := ltb y x.

Definition min2 (x y : Q) : Q := if Qle_bool x y then x else y.
Definition max2 (x y : Q) : Q := if Qle_bool x y then y else x.

(** [np.min] and [np.max] of the entries of an array, given flattened;
    both raise on an array without entries. *)
Definition np_min (l : list Q) : option Q :=
  match l with
  | [] => None
  | x :: r => Some (fold_left min2 r x)
  end.

Definition np_max (l : list Q) : option Q :=
  match l with
  | [] => None
  | x :: r => Some (fold_left max2 r x)
  end.

End Num.

(** ** Arrays

    A three-dimensional volume is a list of planes, a plane a list of rows;
    the five-dimensional tensors handed to the network add a batch axis in
    front and a channel axis behind. *)

Abbreviation vol3 A := (list (list (list A))) (only parsing).
Abbreviation tensor5 A := (list (list (list (list (list A))))) (only parsing).

(** All entries of a volume, in row-major order. *)
Definition flatten3 {A : Type} (v : vol3 A) : list A := concat (concat v).

Definition map3 {A B : Type} (f : A -> B) (v : vol3 A) : vol3 B :=
  map (map (map f)) v.

(** [v] has shape [(d0, d1, d2)]. *)
Definition has_shape3 {A : Type} (d0 d1 d2 : nat) (v : vol3 A) : Prop :=
  length v = d0 /\
  Forall (fun p => length p = d1 /\ Forall (fun r => length r = d2) p) v.

(** [t] has shape [(b, d0, d1, d2, c)]. *)
Definition has_shape5 {A : Type} (b d0 d1 d2 c : nat) (t : tensor5 A) : Prop :=
  length t = b /\
  Forall (fun v => length v = d0 /\
    Forall (fun p => length p = d1 /\
      Forall (fun r => length r = d2 /\
        Forall (fun ch => length ch = c) r) p) v) t.

(** [v.shape] of a volume with at least one entry. *)
Definition shape3 {B : Type} (v : vol3 B) : nat * nat * nat :=
  (length v, length (hd [] v), length (hd [] (hd [] v))).

(** [I.shape[1:-1]]: the three spatial extents of a tensor of batch size
    one. *)
Definition spatial_shape {A : Type} (t : tensor5 A) : nat * nat * nat :=
  shape3 (B := list A) (hd [] t).

(** [im[np.newaxis, ..., np.newaxis]] *)
Definition add_batch_and_channel {A : Type} (im : vol3 A) : tensor5 A :=
  [map (map (map (fun x => [x]))) im].

(** [np.squeeze] of a tensor of shape [(1, W0, W1, W2, 1)] whose spatial
    extents are not one: the batch and the channel axis go. *)
Definition np_squeeze {A : Type} (t : tensor5 A) : vol3 A :=
  map (map (@concat A)) (concat t).

(** [np.zeros([1, W0, W1, W2, 1])], for any fill value. *)
Definition full5 {A : Type} (x : A) (W0 W1 W2 : nat) : tensor5 A :=
  [replicate W0 (replicate W1 (replicate W2 [x]))].

(** [l[a:b]] for [0 <= a <= b]. *)
Definition slice {A : Type} (a b : nat) (l : list A) : list A :=
  take (b - a) (drop a l).

(** [dst[lo:lo + len(src)] = src], one axis at a time: [upd] assigns the
    entry of [src] into the entry of [dst] it meets. *)
Fixpoint set_slice {A B : Type} (upd : A -> B -> A) (lo : nat)
    (dst : list A) (src : list B) : list A :=
  match dst with
  | [] => []
  | a :: dst' =>
      match lo with
      | S k => a :: set_slice upd k dst' src
      | O =>
          match src with
          | [] => a :: dst'
          | b :: src' => upd a b :: set_slice upd O dst' src'
          end
      end
  end.

(** [pred[a0:a0+d0, a1:a1+d1, a2:a2+d2]] *)
Definition crop3 {A : Type} (a0 a1 a2 d0 d1 d2 : nat) (v : vol3 A) : vol3 A :=
  map (fun p => map (fun r => slice a2 (a2 + d2) r) (slice a1 (a1 + d1) p))
      (slice a0 (a0 + d0) v).

(** [np.flip(t, axis=1)]: the first spatial axis is reversed. *)
Definition np_flip_axis1 {A : Type} (t : tensor5 A) : tensor5 A := map (@reverse _) t.

(** Entry [(0, i, j, k, 0)] of a tensor, entry [(i, j, k)] of a volume. *)
Definition at3 {A : Type} (v : vol3 A) (i j k : nat) : option A :=
  p ← v !! i; r ← p !! j; r !! k.

Definition at5 {A : Type} (t : tensor5 A) (i j k : nat) : option A :=
  v ← t !! 0%nat; p ← v !! i; r ← p !! j; ch ← r !! k; ch !! 0%nat.

(** [S[0, i0:i0+d0, i1:i1+d1, i2:i2+d2, :] = I] *)
Definition assign_block {A : Type} (i0 i1 i2 : nat) (S I : tensor5 A)
    : tensor5 A :=
  match S with
  | [] => []
  | s0 :: rest =>
      set_slice (set_slice (set_slice (fun _ ch => ch) i2) i1) i0
                s0 (hd [] I) :: rest
  end.

(** Elementwise [f] over two tensors of one shape. *)
Definition map5_2 {A : Type} (f : A -> A -> A) (s t : tensor5 A) : tensor5 A :=
  zip_with (zip_with (zip_with (zip_with (zip_with f)))) s t.

Definition map5 {A B : Type} (f : A -> B) (t : tensor5 A) : tensor5 B :=
  map (map (map (map (map f)))) t.

(** ** Padding to a shape the network accepts (lines 141-146) *)

(** One entry of [W = (np.ceil(shape / 32.0) * 32).astype('int')].  The
    division by 32.0 is exact for every array extent, so the ceiling is
    that of the rational [d / 32]. *)
Definition padded_dim (d : Z) : Z := (Qceiling (inject_Z d / 32) * 32)%Z.

(** One entry of [idx = np.floor((W - shape) / 2).astype('int')]. *)
Definition pad_offset (W d : Z) : Z := Qfloor (inject_Z (W - d) / 2).

Definition padded_shape (sh : nat * nat * nat) : nat * nat * nat :=
  let '(d0, d1, d2) := sh in
  (Z.to_nat (padded_dim (Z.of_nat d0)),
   Z.to_nat (padded_dim (Z.of_nat d1)),
   Z.to_nat (padded_dim (Z.of_nat d2))).

Definition pad_offsets (sh : nat * nat * nat) : nat * nat * nat :=
  let '(d0, d1, d2) := sh in
  let '(W0, W1, W2) := padded_shape sh in
  (Z.to_nat (pad_offset (Z.of_nat W0) (Z.of_nat d0)),
   Z.to_nat (pad_offset (Z.of_nat W1) (Z.of_nat d1)),
   Z.to_nat (pad_offset (Z.of_nat W2) (Z.of_nat d2))).

(** The tensor [S] the network is run on. *)
Definition pad_volume {A : Type} (zero : A) (im : vol3 A) : tensor5 A :=
  let I := add_batch_and_channel im in
  let '(W0, W1, W2) := padded_shape (spatial_shape I) in
  let '(i0, i1, i2) := pad_offsets (spatial_shape I) in
  assign_block i0 i1 i2 (full5 zero W0 W1 W2) I.

(** The crop of line 160, with the [idx] and [I.shape] of the padding. *)
Definition crop_to_input {A B : Type} (im : vol3 A) (pred : vol3 B) : vol3 B :=
  let I := add_batch_and_channel im in
  let '(d0, d1, d2) := spatial_shape I in
  let '(i0, i1, i2) := pad_offsets (spatial_shape I) in
  crop3 i0 i1 i2 d0 d1 d2 pred.

(** The padded extent of an axis of extent [d], and the centred offset
    [(W - d) / 2] of the volume along it. *)
Definition W_of (d : nat) : nat := Z.to_nat (padded_dim (Z.of_nat d)).
Definition off_of (d : nat) : nat := ((W_of d - d) / 2)%nat.

(** What "placed at offset [before] in an axis of extent [total]" means for
    one axis: [before] fill values, the entries, fill values up to [total]. *)
Definition pad_axis {A : Type} (before total : nat) (fill : A) (l : list A)
    : list A :=
  replicate before fill ++ l ++ replicate (total - before - length l) fill.

(** A volume placed at offsets [(o0, o1, o2)] in a tensor of shape
    [(1, W0, W1, W2, 1)] that is [fill] elsewhere. *)
Definition placed_at {A : Type} (fill : A) (o0 o1 o2 W0 W1 W2 : nat)
    (im : vol3 A) : tensor5 A :=
  [pad_axis o0 W0 (replicate W1 (replicate W2 [fill]))
     (map (fun p =>
        pad_axis o1 W1 (replicate W2 [fill])
          (map (fun r => pad_axis o2 W2 [fill] (map (fun x => [x]) r)) p))
        im)].

(** ** Errors *)

(** What the script can stop with.  [Exception] and [AssertionError] are
    the two [raise]/[assert] statements of the script itself; [ValueError]
    is numpy refusing to reduce an array without entries; [LibraryError]
    is anything raised inside a call into [ext.lab2im] or the network, named
    by the call.  [DivisionByZero] is where the rational model ends: numpy
    divides by zero with a warning and carries on with an array of nan,
    which no rational stands for; [normalize_fp] below goes on as the
    script does. *)
Inductive error : Type :=
  | Exception (msg : string)
  | AssertionError (msg : string)
  | ValueError (msg : string)
  | DivisionByZero
  | LibraryError (call msg : string).

Definition result (A : Type) : Type := (error + A)%type.

(** ** The arithmetic the script does on a volume *)

(** [im[mask(im)] = v] *)
Definition masked_assign (mask : Q -> bool) (v : Q) (im : vol3 Q) : vol3 Q :=
  map3 (fun x => if mask x then v else x) im.

(** Lines 128-129: [im[im < 0] = 0; im[im > 80] = 80]. *)
Definition ct_clip (im : vol3 Q) : vol3 Q :=
  let im := masked_assign (fun x => Num.ltb x 0) 0 im in
  masked_assign (fun x => Num.gtb x 80) 80 im.

(** Line 138: [im - np.min(im)]. *)
Definition subtract_min (im : vol3 Q) : option (vol3 Q) :=
  m ← Num.np_min (flatten3 im);
  Some (map3 (fun x => Num.sub x m) im).

(** The divisor of line 139: [np.max] of the volume after line 138. *)
Definition normalization_divisor (im : vol3 Q) : option Q :=
  im1 ← subtract_min im; Num.np_max (flatten3 im1).

(** Lines 138-139.  Nothing in the script tests the divisor.  Where it is
    0 the script goes on with a volume of nan ([normalize_fp] below), which
    a volume of rationals cannot be: the run on rationals ends there. *)
Definition normalize (im : vol3 Q) : result (vol3 Q) :=
  match subtract_min im with
  | None => inl (ValueError "zero-size array to reduction operation minimum which has no identity")
  | Some im1 =>
      match Num.np_max (flatten3 im1) with
      | None => inl (ValueError "zero-size array to reduction operation maximum which has no identity")
      | Some M =>
          if Qeq_bool M 0 then inl DivisionByZero
          else inr (map3 (fun x => Num.div x M) im1)
      end
  end.

(** Lines 148-153, for a network [predict]. *)
Definition predict_with_flipping (predict : tensor5 Q -> tensor5 Q)
    (disable_flipping : bool) (S : tensor5 Q) : tensor5 Q :=
  if disable_flipping then predict S
  else
    map5_2 Num.add
      (map5 (Num.mul (1 # 2)) (predict S))
      (map5 (Num.mul (1 # 2)) (np_flip_axis1 (predict (np_flip_axis1 S)))).

(** Lines 156-160: squeeze, times 255, clip to [0, 128], crop. *)
Definition postprocess (im : vol3 Q) (output : tensor5 Q) : vol3 Q :=
  let pred := np_squeeze output in
  let pred := map3 (Num.mul 255) pred in
  let pred := masked_assign (fun x => Num.ltb x 0) 0 pred in
  let pred := masked_assign (fun x => Num.gtb x 128) 128 pred in
  crop_to_input im pred.

(** The postprocessing in the order the specification lists it: crop, clip,
    rescale, the upper clipping threshold divided by the scale. *)
Definition postprocess_crop_clip_rescale (im : vol3 Q) (output : tensor5 Q)
    : vol3 Q :=
  let pred := crop_to_input im (np_squeeze output) in
  let pred := masked_assign (fun x => Num.ltb x 0) 0 pred in
  let pred := masked_assign (fun x => Num.gtb x (128 # 255)) (128 # 255) pred in
  map3 (Num.mul 255) pred.

(** One entry of the prediction as the specification words it: times 255,
    then below 0 set to 0 and above 128 set to 128. *)
Definition rescale_and_clip (x : Q) : Q :=
  let y := Num.mul 255 x in
  if Num.ltb y 0 then 0 else if Num.gtb y 128 then 128 else y.

(** ** Strings and paths *)

Module Str.
Local Open Scope string_scope.

(** [pat in s] *)
Fixpoint contains (pat s : string) : bool :=
  String.prefix pat s ||
  match s with
  | EmptyString => false
  | String _ s' => contains pat s'
  end.

(** [s.replace(old, new)] for a non-empty [old]: every occurrence, left
    to right, without overlap.  [skip] counts the characters of a matched
    occurrence that are still to be dropped. *)
Fixpoint replace_from (old new : string) (skip : nat) (s : string) : string :=
  match s with
  | EmptyString => EmptyString
  | String c s' =>
      match skip with
      | S k => replace_from old new k s'
      | O =>
          if String.prefix old s
          then new ++ replace_from old new (String.length old - 1) s'
          else String c (replace_from old new 0 s')
      end
  end.

Definition replace (old new s : string) : string := replace_from old new 0 s.

(** [s.startswith(pre)], [s.endswith(suf)] *)
Definition startswith (pre s : string) : bool := String.prefix pre s.

Fixpoint endswith (suf s : string) : bool :=
  String.eqb suf s ||
  match s with
  | EmptyString => false
  | String _ s' => endswith suf s'
  end.

(** [os.path.basename]: what follows the last slash. *)
Fixpoint basename (p : string) : string :=
  match p with
  | EmptyString => EmptyString
  | String _ p' => if contains "/" p then basename p' else p
  end.

(** [os.path.join(a, b)] of [posixpath]. *)
Definition join (a b : string) : string :=
  if startswith "/" b then b
  else if String.eqb a "" || endswith "/" a then a ++ b
  else a ++ "/" ++ b.

End Str.

(** ** Input dispatch (lines 91-114) *)

(** [basename] names an image file: one of the four extensions occurs in
    it.  The script's condition for the directory case is the negation. *)
Definition has_image_extension (basename : string) : bool :=
  Str.contains ".nii.gz" basename || Str.contains ".nii" basename ||
  Str.contains ".mgz" basename || Str.contains ".npz" basename.

Definition is_directory_case (basename : string) : bool :=
  negb (Str.contains ".nii.gz" basename) && negb (Str.contains ".nii" basename) &&
  negb (Str.contains ".mgz" basename) && negb (Str.contains ".npz" basename).

(** Lines 108-110: the path a prediction is saved under in the directory
    case. *)
Definition prediction_path (path_predictions image : string) : string :=
  let p := Str.replace ".nii" "_SynthSR.nii"
             (Str.join path_predictions (Str.basename image)) in
  let p := Str.replace ".mgz" "_SynthSR.mgz" p in
  Str.replace ".npz" "_SynthSR.npz" p.

Definition msg_extension (path_images : string) : string :=
  ("Extension not supported for " ++ path_images ++
   ", only use: nii.gz, .nii, .mgz, or .npz")%string.

Definition msg_missing (path_images : string) : string :=
  ("File does not exist: " ++ path_images ++
   ". Please make sure the path and the extension are correct.")%string.

(** ** What the script calls *)

Definition affine : Type := list (list Q).

(** [np.eye(4)] *)
Definition np_eye4 : affine :=
  [[1; 0; 0; 0]; [0; 1; 0; 0]; [0; 0; 1; 0]; [0; 0; 0; 1]].

(** The process environment and the functions of [os.path], [ext.lab2im]
    and [ext.neuron] the script calls.  The calls that touch the file
    system may raise, with a message; resampling, alignment and the forward
    pass of the network are functions of their arguments. *)
Class Externals : Type := {
  header : Type;
  (** [os.path.dirname(os.path.dirname(os.path.abspath(sys.argv[0])))] *)
  synthSR_home : string;
  os_path_abspath : string -> string;
  os_path_isfile : string -> bool;
  list_images_in_folder : string -> string + list string;
  mkdir : string -> string + unit;
  load_volume : string -> string + (vol3 Q * affine * header);
  resample_volume : vol3 Q -> affine -> list Q -> vol3 Q * affine;
  align_volume_to_ref : vol3 Q -> affine -> affine -> vol3 Q * affine;
  (** [unet_model.load_weights(path, by_name=True)] *)
  load_weights : string -> string + unit;
  (** [unet_model.predict] with the weights of the given file loaded *)
  unet_predict : string -> tensor5 Q -> tensor5 Q;
  save_volume : vol3 Q -> affine -> string -> string + unit;
}.

(** ** Arguments (lines 39-52) *)

(** The command line as [argparse] splits it: the two positional arguments,
    which flags are present, and the values of the options that are
    given. *)
Record command_line : Type := {
  given_path_images : string;
  given_path_predictions : string;
  given_cpu : bool;
  given_threads : option Z;
  given_ct : bool;
  given_model : option string;
  given_disable_flipping : bool;
}.

(** [args = vars(parser.parse_args())] *)
Record arguments : Type := {
  path_images : string;
  path_predictions : string;
  cpu : bool;
  threads : Z;
  ct : bool;
  model : option string;
  disable_flipping : bool;
}.

Definition parse_args (cl : command_line) : arguments :=
  {| path_images := given_path_images cl;
     path_predictions := given_path_predictions cl;
     cpu := given_cpu cl;
     threads := default 1%Z (given_threads cl);
     ct := given_ct cl;
     model := given_model cl;
     disable_flipping := given_disable_flipping cl |}.

(** ** State and trace *)

(** The steps on one image; each but the two library calls at the ends is
    announced by a line of the script's log. *)
Inductive step : Type :=
  | StLoad (path : string)
  | StCtClip
  | StResample
  | StAlign
  | StNormalize
  | StPad
  | StPredict (flipped_input : bool)
  | StPostprocess
  | StSave (path : string).

Inductive event : Type :=
  | EvImport (module : string)
  | EvParseArgs
  | EvSetEnviron (key value : string)
  | EvSetIntraOpThreads (n : Z)
  | EvBuildUnet
  | EvLoadWeights (path : string)
  | EvDiscover (path : string)
  | EvListImages (path : string)
  | EvMkdir (path : string)
  | EvFile (idx : nat) (s : step).

(** What the script can change: [os.environ], the two thread pools of
    [tf.config.threading], the directories made, the volumes written, and
    the record of what was done, oldest first. *)
Record world : Type := {
  environ : gmap string string;
  intra_op_threads : Z;
  inter_op_threads : Z;
  directories : list string;
  saved : list (string * (vol3 Q * affine));
  trace : list event;
}.

Definition with_environ (f : gmap string string -> gmap string string)
    (w : world) : world :=
  {| environ := f (environ w); intra_op_threads := intra_op_threads w;
     inter_op_threads := inter_op_threads w; directories := directories w;
     saved := saved w; trace := trace w |}.

Definition with_intra_op_threads (n : Z) (w : world) : world :=
  {| environ := environ w; intra_op_threads := n;
     inter_op_threads := inter_op_threads w; directories := directories w;
     saved := saved w; trace := trace w |}.

Definition with_directory (d : string) (w : world) : world :=
  {| environ := environ w; intra_op_threads := intra_op_threads w;
     inter_op_threads := inter_op_threads w;
     directories := directories w ++ [d];
     saved := saved w; trace := trace w |}.

Definition with_saved (f : string * (vol3 Q * affine)) (w : world) : world :=
  {| environ := environ w; intra_op_threads := intra_op_threads w;
     inter_op_threads := inter_op_threads w; directories := directories w;
     saved := saved w ++ [f]; trace := trace w |}.

Definition with_event (e : event) (w : world) : world :=
  {| environ := environ w; intra_op_threads := intra_op_threads w;
     inter_op_threads := inter_op_threads w; directories := directories w;
     saved := saved w; trace := trace w ++ [e] |}.

(** A computation of the script: it changes the world and returns a value
    or raises.  Nothing in the script catches an exception, so [bind] stops
    at the first one and the world stays as the raise left it. *)
Definition M (A : Type) : Type := world -> result A * world.

Definition ret {A : Type} (a : A) : M A := fun w => (inr a, w).

Definition raise {A : Type} (e : error) : M A := fun w => (inl e, w).

Definition bind {A B : Type} (m : M A) (k : A -> M B) : M B :=
  fun w =>
    match m w with
    | (inl e, w') => (inl e, w')
    | (inr a, w') => k a w'
    end.

Definition modify (f : world -> world) : M unit := fun w => (inr tt, f w).

Definition emit (e : event) : M unit := modify (with_event e).

(** A library call that may raise. *)
Definition call {A : Type} (name : string) (r : string + A) : M A :=
  match r with
  | inl msg => raise (LibraryError name msg)
  | inr a => ret a
  end.

(** A computation of the script that may raise. *)
Definition lift {A : Type} (r : result A) : M A :=
  match r with
  | inl e => raise e
  | inr a => ret a
  end.

Declare Scope script_scope.
Delimit Scope script_scope with script.
Notation "x <- m ;; k" := (bind m (fun x => k))
  (at level 20, m at level 99, k at level 200, only parsing) : script_scope.
Notation "' p <- m ;; k" := (bind m (fun x => let 'p := x in k))
  (at level 20, p pattern, m at level 99, k at level 200, only parsing)
  : script_scope.
Notation "m ;; k" := (bind m (fun _ => k))
  (at level 100, k at level 200, only parsing) : script_scope.

(** [for idx, x in enumerate(l): body], counting from [idx]. *)
Fixpoint for_each {A : Type} (body : nat -> A -> M unit) (idx : nat)
    (l : list A) : M unit :=
  match l with
  | [] => ret tt
  | x :: l' => bind (body idx x) (fun _ => for_each body (S idx) l')
  end.

(** ** The script *)

Section Script.
Context `{Ext : Externals}.
Local Open Scope script_scope.

(** Lines 91-114: the images to process and where each prediction goes. *)
Definition discover (args : arguments) : M (list string * list string) :=
  let path_images := os_path_abspath (path_images args) in
  let basename := Str.basename path_images in
  let path_predictions := os_path_abspath (path_predictions args) in
  emit (EvDiscover path_images);;
  if is_directory_case basename then
    if os_path_isfile path_images then
      raise (Exception (msg_extension path_images))
    else
      emit (EvListImages path_images);;
      images_to_segment <-
        call "list_images_in_folder" (list_images_in_folder path_images);;
      emit (EvMkdir path_predictions);;
      call "mkdir" (mkdir path_predictions);;
      modify (with_directory path_predictions);;
      ret (images_to_segment,
           map (prediction_path path_predictions) images_to_segment)
  else
    if os_path_isfile path_images then
      ret ([path_images], [path_predictions])
    else
      raise (AssertionError (msg_missing path_images)).

(** Lines 83-88: the file the weights are read from. *)
Definition weights_path (args : arguments) : string :=
  match model args with
  | None => Str.join synthSR_home "models/SynthSR_v10_210712.h5"
  | Some m => m
  end.

(** Lines 126-129: the volume handed to [resample_volume]. *)
Definition volume_for_resampling (args : arguments) (im : vol3 Q) : vol3 Q :=
  if ct args then ct_clip im else im.

(** Lines 126-139 as a function of what [load_volume] returned: the
    normalised volume and the affine matrix of the aligned volume. *)
Definition prepare (args : arguments) (loaded : vol3 Q * affine * header)
    : result (vol3 Q * affine) :=
  let '(im, aff, hdr) := loaded in
  let im := volume_for_resampling args im in
  let '(im, aff) := resample_volume im aff [1; 1; 1] in
  let '(im, aff2) := align_volume_to_ref im aff np_eye4 in
  match normalize im with
  | inl e => inl e
  | inr im => inr (im, aff2)
  end.

(** Lines 141-153 as a function of the normalised volume. *)
Definition network_output (args : arguments) (im : vol3 Q) : tensor5 Q :=
  predict_with_flipping (unet_predict (weights_path args))
                        (disable_flipping args) (pad_volume 0 im).

(** Lines 121-163: the body of the loop. *)
Definition process_image (args : arguments) (idx : nat)
    (paths : string * string) : M unit :=
  let '(path_image, path_prediction) := paths in
  emit (EvFile idx (StLoad path_image));;
  loaded <- call "load_volume" (load_volume path_image);;
  let '(im, aff, hdr) := loaded in
  (if ct args then emit (EvFile idx StCtClip) else ret tt);;
  let im := volume_for_resampling args im in
  emit (EvFile idx StResample);;
  let '(im, aff) := resample_volume im aff [1; 1; 1] in
  emit (EvFile idx StAlign);;
  let '(im, aff2) := align_volume_to_ref im aff np_eye4 in
  emit (EvFile idx StNormalize);;
  im <- lift (normalize im);;
  emit (EvFile idx StPad);;
  let S := pad_volume 0 im in
  emit (EvFile idx (StPredict false));;
  (if disable_flipping args then ret tt
   else emit (EvFile idx (StPredict true)));;
  let output :=
    predict_with_flipping (unet_predict (weights_path args))
                          (disable_flipping args) S in
  emit (EvFile idx StPostprocess);;
  let pred := postprocess im output in
  emit (EvFile idx (StSave path_prediction));;
  call "save_volume" (save_volume pred aff2 path_prediction);;
  modify (with_saved (path_prediction, (pred, aff2))).

(** The whole script, from the imports of line 34 on. *)
Definition main (cl : command_line) : M unit :=
  emit (EvImport "ext.neuron.models");;
  emit (EvImport "ext.lab2im.utils");;
  emit (EvImport "ext.lab2im.edit_volumes");;
  emit EvParseArgs;;
  let args := parse_args cl in
  (if cpu args
   then emit (EvSetEnviron "CUDA_VISIBLE_DEVICES" "-1");;
        modify (with_environ (insert "CUDA_VISIBLE_DEVICES" "-1"))
   else ret tt);;
  emit (EvImport "tensorflow");;
  emit (EvSetIntraOpThreads (threads args));;
  modify (with_intra_op_threads (threads args));;
  emit EvBuildUnet;;
  emit (EvLoadWeights (weights_path args));;
  call "load_weights" (load_weights (weights_path args));;
  found <- discover args;;
  let '(images_to_segment, path_predictions) := found in
  for_each (process_image args) 0 (zip images_to_segment path_predictions).

(** *** The trace a run is expected to leave *)

Definition setup_trace (args : arguments) : list event :=
  [EvImport "ext.neuron.models"; EvImport "ext.lab2im.utils";
   EvImport "ext.lab2im.edit_volumes"; EvParseArgs] ++
  (if cpu args then [EvSetEnviron "CUDA_VISIBLE_DEVICES" "-1"] else []) ++
  [EvImport "tensorflow"; EvSetIntraOpThreads (threads args);
   EvBuildUnet; EvLoadWeights (weights_path args)].

Definition discover_trace (args : arguments) : list event :=
  let path_images := os_path_abspath (path_images args) in
  EvDiscover path_images ::
  (if is_directory_case (Str.basename path_images)
   then [EvListImages path_images;
         EvMkdir (os_path_abspath (path_predictions args))]
   else []).

Definition image_steps (args : arguments) (paths : string * string)
    : list step :=
  [StLoad paths.1] ++
  (if ct args then [StCtClip] else []) ++
  [StResample; StAlign; StNormalize; StPad; StPredict false] ++
  (if disable_flipping args then [] else [StPredict true]) ++
  [StPostprocess; StSave paths.2].

Definition image_trace (args : arguments) (idx : nat)
    (paths : string * string) : list event :=
  map (EvFile idx) (image_steps args paths).

Fixpoint loop_trace (args : arguments) (idx : nat)
    (files : list (string * string)) : list event :=
  match files with
  | [] => []
  | f :: files' => image_trace args idx f ++ loop_trace args (S idx) files'
  end.

(** The images the dispatch finds, each with the path of its prediction;
    none when listing the folder raises. *)
Definition files_to_process (args : arguments) : list (string * string) :=
  let path_images := os_path_abspath (path_images args) in
  let path_predictions := os_path_abspath (path_predictions args) in
  if is_directory_case (Str.basename path_images) then
    match list_images_in_folder path_images with
    | inl _ => []
    | inr images => zip images (map (prediction_path path_predictions) images)
    end
  else [(path_images, path_predictions)].


End Script.

(** The events that configure threads. *)
Definition is_thread_event (e : event) : bool :=
  match e with
  | EvSetIntraOpThreads _ => true
  | _ => false
  end.

(** ** Intensities with the special values of floating point

    The arrays the script works on hold floats, and an entry of such an
    array can be an infinity or nan as well as a number.  [Fp.value] adds
    the three to the rationals, with the rules numpy follows for them: a
    comparison with nan is false, nan goes through every operation and
    through [np.min] and [np.max], [inf - inf], [inf / inf] and [0 / 0] are
    nan, and a division by zero is a warning, never an error.

    The finite part stays exact: rounding is not modelled, zero has no
    sign, and a result beyond the largest finite value [fmax] of the float
    type becomes an infinity. *)

Module Fp.

Inductive value : Type :=
  | Fin (q : Q)
  | PInf
  | NInf
  | NaN.

(** The largest finite [float64] and [float32]. *)
Definition float64_max : Q := inject_Z ((2 ^ 53 - 1) * 2 ^ 971).
Definition float32_max : Q := inject_Z ((2 ^ 24 - 1) * 2 ^ 104).

(** What an operation returns when its exact result is [q]. *)
Definition of_exact (fmax q : Q) : value :=
  if Qle_bool (Qabs q) fmax then Fin (Qred q)
  else if Qle_bool 0 q then PInf else NInf.

Definition neg (x : value) : value :=
  match x with
  | Fin q => Fin (Qred (- q))
  | PInf => NInf
  | NInf => PInf
  | NaN => NaN
  end.

(** [x - y] *)
Definition sub (fmax : Q) (x y : value) : value :=
  match x, y with
  | NaN, _ | _, NaN => NaN
  | Fin a, Fin b => of_exact fmax (a - b)
  | PInf, PInf | NInf, NInf => NaN
  | PInf, _ | _, NInf => PInf
  | NInf, _ | _, PInf => NInf
  end.

(** [x / y]; a zero divisor counts as positive. *)
Definition div (fmax : Q) (x y : value) : value :=
  match x, y with
  | NaN, _ | _, NaN => NaN
  | Fin a, Fin b =>
      if Qeq_bool b 0 then
        if Qeq_bool a 0 then NaN else if Qle_bool 0 a then PInf else NInf
      else of_exact fmax (a / b)
  | Fin _, _ => Fin 0
  | PInf, Fin b => if Qle_bool 0 b then PInf else NInf
  | NInf, Fin b => if Qle_bool 0 b then NInf else PInf
  | _, _ => NaN
  end.

(** [x * y] *)
Definition mul (fmax : Q) (x y : value) : value :=
  match x, y with
  | NaN, _ | _, NaN => NaN
  | Fin a, Fin b => of_exact fmax (a * b)
  | Fin a, v | v, Fin a =>
      if Qeq_bool a 0 then NaN else if Qle_bool 0 a then v else neg v
  | PInf, PInf | NInf, NInf => PInf
  | _, _ => NInf
  end.

(** [x < y] and [x > y] as the boolean masks of [im < 0] and [im > 80]:
    false wherever an operand is nan. *)
Definition ltb (x y : value) : bool :=
  match x, y with
  | NaN, _ | _, NaN => false
  | Fin a, Fin b => negb (Qle_bool b a)
  | _, NInf | PInf, _ => false
  | NInf, _ | _, PInf => true
  end.
Definition gtb (x y : value) : bool := ltb y x.

Definition min2 (x y : value) : value :=
  match x, y with
  | NaN, _ | _, NaN => NaN
  | _, _ => if ltb y x then y else x
  end.

Definition max2 (x y : value) : value :=
  match x, y with
  | NaN, _ | _, NaN => NaN
  | _, _ => if ltb y x then x else y
  end.

(** [np.min] and [np.max]: nan as soon as one entry is nan. *)
Definition np_min (l : list value) : option value :=
  match l with
  | [] => None
  | x :: r => Some (fold_left min2 r x)
  end.

Definition np_max (l : list value) : option value :=
  match l with
  | [] => None
  | x :: r => Some (fold_left max2 r x)
  end.

(** [x] is a number of the interval [[lo, hi]]. *)
Definition within (lo hi : Q) (x : value) : Prop :=
  match x with
  | Fin q => lo <= q <= hi
  | _ => False
  end.

End Fp.

(** *** The arithmetic of the script on volumes of floats *)

(** [im[mask(im)] = v] *)
Definition masked_assign_fp (mask : Fp.value -> bool) (v : Fp.value)
    (im : vol3 Fp.value) : vol3 Fp.value :=
  map3 (fun x => if mask x then v else x) im.

(** Lines 128-129: [im[im < 0] = 0; im[im > 80] = 80]. *)
Definition ct_clip_fp (im : vol3 Fp.value) : vol3 Fp.value :=
  let im := masked_assign_fp (fun x => Fp.ltb x (Fp.Fin 0)) (Fp.Fin 0) im in
  masked_assign_fp (fun x => Fp.gtb x (Fp.Fin 80)) (Fp.Fin 80) im.

(** Lines 126-129: the volume handed to [resample_volume]. *)
Definition volume_for_resampling_fp (args : arguments) (im : vol3 Fp.value)
    : vol3 Fp.value :=
  if ct args then ct_clip_fp im else im.

(** Line 138: [im - np.min(im)]. *)
Definition subtract_min_fp (fmax : Q) (im : vol3 Fp.value)
    : option (vol3 Fp.value) :=
  m ← Fp.np_min (flatten3 im);
  Some (map3 (fun x => Fp.sub fmax x m) im).


(** Lines 138-139.  The only error is that of [np.min] and [np.max] on a
    volume without entries; whatever the divisor is, the division
    returns. *)
Definition normalize_fp (fmax : Q) (im : vol3 Fp.value)
    : result (vol3 Fp.value) :=
  match subtract_min_fp fmax im with
  | None => inl (ValueError "zero-size array to reduction operation minimum which has no identity")
  | Some im1 =>
      match Fp.np_max (flatten3 im1) with
      | None => inl (ValueError "zero-size array to reduction operation maximum which has no identity")
      | Some M => inr (map3 (fun x => Fp.div fmax x M) im1)
      end
  end.

(** What lines 157-159 make of one entry of the network's output. *)
Definition rescale_and_clip_fp (fmax : Q) (x : Fp.value) : Fp.value :=
  let y := Fp.mul fmax (Fp.Fin 255) x in
  if Fp.ltb y (Fp.Fin 0) then Fp.Fin 0
  else if Fp.gtb y (Fp.Fin 128) then Fp.Fin 128 else y.

(** Lines 156-160: squeeze, times 255, clip to [0, 128], crop. *)
Definition postprocess_fp {A : Type} (fmax : Q) (im : vol3 A)
    (output : tensor5 Fp.value) : vol3 Fp.value :=
  let pred := np_squeeze output in
  let pred := map3 (Fp.mul fmax (Fp.Fin 255)) pred in
  let pred := masked_assign_fp (fun x => Fp.ltb x (Fp.Fin 0)) (Fp.Fin 0) pred in
  let pred :=
    masked_assign_fp (fun x => Fp.gtb x (Fp.Fin 128)) (Fp.Fin 128) pred in
  crop_to_input im pred.

(** ** A small instance, to run the script on

    One folder [/in] with two images, a network that returns its input. *)

Module Toy.
Local Open Scope string_scope.

Definition image_a : vol3 Q := [[[1; 3]; [2; 5]]].
Definition image_b : vol3 Q := [[[0; 100]]; [[-20; 40]]].

(** [image_a] after lines 138-139. *)
Definition image_a_normalized : vol3 Q := [[[0; 1 # 2]; [1 # 4; 1]]].

#[export] Instance ext : Externals := {|
  header := unit;
  synthSR_home := "/opt/SynthSR";
  os_path_abspath := fun p => p;
  os_path_isfile := fun p =>
    String.eqb p "/in/a.nii.gz" || String.eqb p "/in/b.mgz" ||
    String.eqb p "/in/notes.txt";
  list_images_in_folder := fun p =>
    if String.eqb p "/in" then inr ["/in/a.nii.gz"; "/in/b.mgz"]
    else inl ("Folder does not exist: " ++ p);
  mkdir := fun _ => inr tt;
  load_volume := fun p =>
    if String.eqb p "/in/a.nii.gz" then inr (image_a, np_eye4, tt)
    else if String.eqb p "/in/b.mgz" then inr (image_b, np_eye4, tt)
    else inl ("cannot read " ++ p);
  resample_volume := fun im aff _ => (im, aff);
  align_volume_to_ref := fun im aff _ => (im, aff);
  load_weights := fun _ => inr tt;
  unet_predict := fun _ S => S;
  save_volume := fun _ _ _ => inr tt;
|}.

(** A network that does not commute with the flip: it blanks the first
    plane along axis 1 and keeps the rest. *)
Definition blank_first_plane (S : tensor5 Q) : tensor5 Q :=
  map (fun v =>
         match v with
         | [] => []
         | p :: rest => map (map (map (fun _ => 0))) p :: rest
         end) S.

Definition ext_blanking : Externals := {|
  header := unit;
  synthSR_home := "/opt/SynthSR";
  os_path_abspath := fun p => p;
  os_path_isfile := fun p => String.eqb p "/in/a.nii.gz";
  list_images_in_folder := fun p => inl ("Folder does not exist: " ++ p);
  mkdir := fun _ => inr tt;
  load_volume := fun p =>
    if String.eqb p "/in/a.nii.gz" then inr (image_a, np_eye4, tt)
    else inl ("cannot read " ++ p);
  resample_volume := fun im aff _ => (im, aff);
  align_volume_to_ref := fun im aff _ => (im, aff);
  load_weights := fun _ => inr tt;
  unet_predict := fun _ S => blank_first_plane S;
  save_volume := fun _ _ _ => inr tt;
|}.

Definition world0 : world :=
  {| environ := {[ "HOME" := "/root" ]};
     intra_op_threads := 0; inter_op_threads := 0;
     directories := []; saved := []; trace := [] |}.

Definition folder_run (with_cpu with_ct no_flip : bool) : command_line :=
  {| given_path_images := "/in"; given_path_predictions := "/out";
     given_cpu := with_cpu; given_threads := None; given_ct := with_ct;
     given_model := None; given_disable_flipping := no_flip |}.

(** A run on the folder [/in] with the predictions going to [out]. *)
Definition folder_run_to (out : string) : command_line :=
  {| given_path_images := "/in"; given_path_predictions := out;
     given_cpu := false; given_threads := None; given_ct := false;
     given_model := None; given_disable_flipping := true |}.

Definition single_run (input : string) : command_line :=
  {| given_path_images := input; given_path_predictions := "/out/p.nii";
     given_cpu := false; given_threads := Some 4%Z; given_ct := false;
     given_model := Some "/models/other.h5";
     given_disable_flipping := true |}.

End Toy.

(** The errors that come out of the loop: those of library calls and of
    numpy, never the two the dispatch raises. *)
Definition loop_error (e : error) : Prop :=
  match e with
  | LibraryError _ _ | ValueError _ | DivisionByZero => True
  | Exception _ | AssertionError _ => False
  end.

(** ** Reasoning about runs *)

(** Everything but the trace and the saved volumes. *)
Definition same_settings (w w' : world) : Prop :=
  environ w' = environ w /\ intra_op_threads w' = intra_op_threads w /\
  inter_op_threads w' = inter_op_threads w.

(** One step of running a script by hand: case analysis on the innermost
    value a [match] of the hypothesis is stuck on. *)
Ltac run_step :=
  match goal with
  | H : context [match ?x with _ => _ end] |- _ =>
      lazymatch x with
      | context [match _ with _ => _ end] => fail
      | _ => idtac
      end;
      let T := type of x in
      let T := eval hnf in T in
      match T with
      | sum _ _ => destruct x as [?|?] eqn:?
      | prod _ _ => destruct x as [? ?] eqn:?
      | bool => destruct x eqn:?
      | unit => destruct x
      end; simpl in H
  end.

(** * Properties *)

(** ** Intensities *)

Lemma ltb_lt (x y : Q) : Num.ltb x y = true <-> x < y.
Proof.
  unfold Num.ltb. rewrite negb_true_iff, <- not_true_iff_false, Qle_bool_iff.
  split; [apply Qnot_le_lt | apply Qlt_not_le].
Qed.

Lemma ltb_ge (x y : Q) : Num.ltb x y = false <-> y <= x.
Proof.
  unfold Num.ltb. rewrite negb_false_iff. apply Qle_bool_iff.
Qed.

Lemma gtb_gt (x y : Q) : Num.gtb x y = true <-> y < x.
Proof. apply ltb_lt. Qed.

Lemma gtb_le (x y : Q) : Num.gtb x y = false <-> x <= y.
Proof. apply ltb_ge. Qed.

Lemma Qred_eq_of_Qeq (q : Q) (c : Q) : q == c -> Qred q = Qred c.
Proof. apply Qred_complete. Qed.

Lemma min2_cases (x y : Q) :
  (Num.min2 x y = x /\ x <= y) \/ (Num.min2 x y = y /\ y <= x).
Proof.
  unfold Num.min2. destruct (Qle_bool x y) eqn:E.
  - left. split; [reflexivity | by apply Qle_bool_iff].
  - right. split; [reflexivity |].
    apply Qlt_le_weak, Qnot_le_lt. rewrite <- Qle_bool_iff. congruence.
Qed.

Lemma max2_cases (x y : Q) :
  (Num.max2 x y = y /\ x <= y) \/ (Num.max2 x y = x /\ y <= x).
Proof.
  unfold Num.max2. destruct (Qle_bool x y) eqn:E.
  - left. split; [reflexivity | by apply Qle_bool_iff].
  - right. split; [reflexivity |].
    apply Qlt_le_weak, Qnot_le_lt. rewrite <- Qle_bool_iff. congruence.
Qed.

Lemma fold_min2_spec (r : list Q) (x : Q) :
  In (fold_left Num.min2 r x) (x :: r) /\
  forall y, In y (x :: r) -> fold_left Num.min2 r x <= y.
Proof.
  revert x. induction r as [|a r IH]; intros x; simpl.
  - split; [by left |]. intros y [<- | []]. apply Qle_refl.
  - destruct (IH (Num.min2 x a)) as [Hin Hle].
    set (F := fold_left Num.min2 r (Num.min2 x a)) in *. split.
    + destruct Hin as [Hin | Hin]; [| by right; right].
      destruct (min2_cases x a) as [[E _] | [E _]]; rewrite E in Hin;
        simpl; auto.
    + intros y Hy.
      assert (Hm : F <= Num.min2 x a)
        by (apply Hle; by left).
      destruct Hy as [<- | [<- | Hy]].
      * destruct (min2_cases x a) as [[E ?] | [E ?]]; rewrite E in Hm;
          [done | by eapply Qle_trans].
      * destruct (min2_cases x a) as [[E ?] | [E ?]]; rewrite E in Hm;
          [by eapply Qle_trans | done].
      * apply Hle. by right.
Qed.

Lemma fold_max2_spec (r : list Q) (x : Q) :
  In (fold_left Num.max2 r x) (x :: r) /\
  forall y, In y (x :: r) -> y <= fold_left Num.max2 r x.
Proof.
  revert x. induction r as [|a r IH]; intros x; simpl.
  - split; [by left |]. intros y [<- | []]. apply Qle_refl.
  - destruct (IH (Num.max2 x a)) as [Hin Hle].
    set (F := fold_left Num.max2 r (Num.max2 x a)) in *. split.
    + destruct Hin as [Hin | Hin]; [| by right; right].
      destruct (max2_cases x a) as [[E _] | [E _]]; rewrite E in Hin;
        simpl; auto.
    + intros y Hy.
      assert (Hm : Num.max2 x a <= F)
        by (apply Hle; by left).
      destruct Hy as [<- | [<- | Hy]].
      * destruct (max2_cases x a) as [[E ?] | [E ?]]; rewrite E in Hm;
          [by eapply Qle_trans | done].
      * destruct (max2_cases x a) as [[E ?] | [E ?]]; rewrite E in Hm;
          [done | by eapply Qle_trans].
      * apply Hle. by right.
Qed.

Lemma np_min_spec (l : list Q) (m : Q) :
  Num.np_min l = Some m -> In m l /\ forall y, In y l -> m <= y.
Proof.
  destruct l as [|x r]; simpl; [done |]. intros [= <-]. apply fold_min2_spec.
Qed.

Lemma np_max_spec (l : list Q) (m : Q) :
  Num.np_max l = Some m -> In m l /\ forall y, In y l -> y <= m.
Proof.
  destruct l as [|x r]; simpl; [done |]. intros [= <-]. apply fold_max2_spec.
Qed.

Lemma np_min_is_Some (l : list Q) : l <> [] -> exists m, Num.np_min l = Some m.
Proof. destruct l; [done | eauto]. Qed.

Lemma np_max_is_Some (l : list Q) : l <> [] -> exists m, Num.np_max l = Some m.
Proof. destruct l; [done | eauto]. Qed.

(** The least entry is determined by being an entry below all entries, once
    entries are in lowest terms. *)
Lemma np_min_reduced (l : list Q) (c : Q) :
  Forall (fun x => Qred x = x) l ->
  (exists x, In x l /\ x == c) -> (forall y, In y l -> c <= y) ->
  Num.np_min l = Some (Qred c).
Proof.
  intros Hred [x [Hx Hxc]] Hlow.
  destruct (np_min_is_Some l) as [m Hm]; [by destruct l |].
  rewrite Hm. f_equal. destruct (np_min_spec _ _ Hm) as [Hin Hle].
  rewrite List.Forall_forall in Hred. rewrite <- (Hred m Hin).
  apply Qred_complete. apply Qle_antisym.
  - rewrite <- Hxc. by apply Hle.
  - by apply Hlow.
Qed.

Lemma np_max_reduced (l : list Q) (c : Q) :
  Forall (fun x => Qred x = x) l ->
  (exists x, In x l /\ x == c) -> (forall y, In y l -> y <= c) ->
  Num.np_max l = Some (Qred c).
Proof.
  intros Hred [x [Hx Hxc]] Hup.
  destruct (np_max_is_Some l) as [m Hm]; [by destruct l |].
  rewrite Hm. f_equal. destruct (np_max_spec _ _ Hm) as [Hin Hle].
  rewrite List.Forall_forall in Hred. rewrite <- (Hred m Hin).
  apply Qred_complete. apply Qle_antisym.
  - by apply Hup.
  - rewrite <- Hxc. by apply Hle.
Qed.

Lemma flatten3_map3 {A B : Type} (f : A -> B) (v : vol3 A) :
  flatten3 (map3 f v) = map f (flatten3 v).
Proof.
  unfold flatten3, map3. by rewrite !concat_map.
Qed.

Lemma Forall_reduced_map (f : Q -> Q) (l : list Q) :
  (forall x, Qred (f x) = f x) -> Forall (fun x => Qred x = x) (map f l).
Proof.
  intros Hf. apply List.Forall_forall. intros y Hy.
  apply in_map_iff in Hy as [x [<- _]]. apply Hf.
Qed.

Lemma Qred_twice (q : Q) : Qred (Qred q) = Qred q.
Proof. apply Qred_complete, Qred_correct. Qed.

Lemma sub_reduced (m x : Q) : Qred (Num.sub x m) = Num.sub x m.
Proof. apply Qred_twice. Qed.

Lemma div_reduced (m x : Q) : Qred (Num.div x m) = Num.div x m.
Proof. apply Qred_twice. Qed.

(** After line 138 every entry is non-negative and the least entry has
    become zero. *)
Lemma subtract_min_spec (im : vol3 Q) (m : Q) :
  Num.np_min (flatten3 im) = Some m ->
  let l1 := flatten3 (map3 (fun x => Num.sub x m) im) in
  (forall y, In y l1 -> 0 <= y) /\
  (exists y, In y l1 /\ y == 0) /\
  (forall y, In y l1 -> exists z, In z (flatten3 im) /\ y == z - m).
Proof.
  intros Hm l1. subst l1. rewrite flatten3_map3.
  destruct (np_min_spec _ _ Hm) as [Hin Hle]. repeat split.
  - intros y Hy. apply in_map_iff in Hy as [z [<- Hz]].
    unfold Num.sub. rewrite Qred_correct. specialize (Hle z Hz). lra.
  - exists (Num.sub m m). split.
    + apply in_map_iff. by exists m.
    + unfold Num.sub. rewrite Qred_correct. lra.
  - intros y Hy. apply in_map_iff in Hy as [z [<- Hz]].
    exists z. split; [done |]. unfold Num.sub. apply Qred_correct.
Qed.

Lemma Qeq_bool_false_of_pos (M : Q) : 0 < M -> Qeq_bool M 0 = false.
Proof.
  intros HM. apply not_true_iff_false. rewrite Qeq_bool_iff. lra.
Qed.

(** Lines 138-139 on rationals.  A volume whose entries are not all equal
    is normalised, with least entry 0 and greatest entry 1; for a volume
    whose entries are all equal the divisor is 0. *)
Lemma normalize_cases (im : vol3 Q) :
  (forall x y, In x (flatten3 im) -> In y (flatten3 im) -> ~ x == y ->
     exists v, normalize im = inr v /\
               Num.np_min (flatten3 v) = Some 0 /\
               Num.np_max (flatten3 v) = Some 1) /\
  (flatten3 im <> [] ->
   (forall x y, In x (flatten3 im) -> In y (flatten3 im) -> x == y) ->
     normalization_divisor im = Some 0 /\ normalize im = inl DivisionByZero).
Proof.
  split.
  - intros x y Hx Hy Hxy.
    destruct (np_min_is_Some (flatten3 im)) as [m Hm];
      [by destruct (flatten3 im) |].
    destruct (np_min_spec _ _ Hm) as [Hmin Hmle].
    destruct (subtract_min_spec im m Hm) as (Hnn & Hzero & Hform).
    set (im1 := map3 (fun x => Num.sub x m) im) in *.
    destruct (np_max_is_Some (flatten3 im1)) as [M HM].
    { destruct Hzero as [z [Hz _]]. by destruct (flatten3 im1). }
    destruct (np_max_spec _ _ HM) as [HMin HMle].
    assert (HMpos : 0 < M).
    { assert (Hz : exists z, In z (flatten3 im) /\ m < z).
      { destruct (Qlt_le_dec m x) as [Hlt | Hge]; [by exists x |].
        exists y. split; [done |].
        pose proof (Hmle x Hx). pose proof (Hmle y Hy).
        destruct (Qlt_le_dec m y) as [Hlt' | Hge']; [done |].
        exfalso. apply Hxy. lra. }
      destruct Hz as [z [Hz Hlt]].
      assert (Hin : In (Num.sub z m) (flatten3 im1)).
      { unfold im1. rewrite flatten3_map3. apply in_map_iff. by exists z. }
      specialize (HMle _ Hin). unfold Num.sub in HMle.
      rewrite Qred_correct in HMle. lra. }
    exists (map3 (fun x => Num.div x M) im1).
    unfold normalize, subtract_min. rewrite Hm. simpl. fold im1.
    rewrite HM, (Qeq_bool_false_of_pos M HMpos). split; [done |].
    rewrite flatten3_map3. split.
    + change 0 with (Qred 0). apply np_min_reduced.
      * apply Forall_reduced_map. intros. apply div_reduced.
      * destruct Hzero as [z [Hz Hz0]]. exists (Num.div z M). split.
        -- apply in_map_iff. by exists z.
        -- unfold Num.div. rewrite Qred_correct, Hz0. field. lra.
      * intros q Hq. apply in_map_iff in Hq as [z [<- Hz]].
        unfold Num.div. rewrite Qred_correct.
        apply Qle_shift_div_l; [done |]. specialize (Hnn z Hz). lra.
    + change 1 with (Qred 1). apply np_max_reduced.
      * apply Forall_reduced_map. intros. apply div_reduced.
      * exists (Num.div M M). split.
        -- apply in_map_iff. by exists M.
        -- unfold Num.div. rewrite Qred_correct. field. lra.
      * intros q Hq. apply in_map_iff in Hq as [z [<- Hz]].
        unfold Num.div. rewrite Qred_correct.
        apply Qle_shift_div_r; [done |]. specialize (HMle z Hz). lra.
  - intros Hne Hconst.
    destruct (np_min_is_Some (flatten3 im) Hne) as [m Hm].
    destruct (np_min_spec _ _ Hm) as [Hmin Hmle].
    destruct (subtract_min_spec im m Hm) as (Hnn & Hzero & Hform).
    set (im1 := map3 (fun x => Num.sub x m) im) in *.
    assert (HM : Num.np_max (flatten3 im1) = Some 0).
    { change 0 with (Qred 0). apply np_max_reduced.
      - unfold im1. rewrite flatten3_map3. apply Forall_reduced_map.
        intros. apply sub_reduced.
      - done.
      - intros q Hq. destruct (Hform q Hq) as [z [Hz ->]].
        specialize (Hconst z m Hz Hmin). lra. }
    unfold normalization_divisor, normalize, subtract_min.
    rewrite Hm. simpl. fold im1. by rewrite HM.
Qed.

(** ** Entries of mapped volumes *)

Lemma lookup_map {A B : Type} (f : A -> B) (l : list A) (i : nat) :
  map f l !! i = f <$> l !! i.
Proof. apply (list_lookup_fmap f l i). Qed.

Lemma at3_map3 {A B : Type} (f : A -> B) (v : vol3 A) (i j k : nat) :
  at3 (map3 f v) i j k = f <$> at3 v i j k.
Proof.
  unfold at3, map3. rewrite lookup_map.
  destruct (v !! i) as [p|]; simpl; [| done]. rewrite lookup_map.
  destruct (p !! j) as [r|]; simpl; [| done]. apply lookup_map.
Qed.

Lemma at3_masked_assign (mask : Q -> bool) (c : Q) (v : vol3 Q) (i j k : nat) :
  at3 (masked_assign mask c v) i j k =
  (fun x => if mask x then c else x) <$> at3 v i j k.
Proof. apply at3_map3. Qed.

(** ** Padded extents and offsets *)

Lemma padded_dim_bounds (d : Z) :
  (d <= padded_dim d < d + 32)%Z /\ (32 | padded_dim d)%Z.
Proof.
  unfold padded_dim. set (c := Qceiling (inject_Z d / 32)).
  pose proof (Qle_ceiling (inject_Z d / 32)) as Hle.
  pose proof (Qceiling_lt (inject_Z d / 32)) as Hlt. fold c in Hle, Hlt.
  assert (E : inject_Z d / 32 == inject_Z d * (1 # 32)) by field.
  rewrite E in Hle, Hlt.
  split; [split |].
  - rewrite Zle_Qle, inject_Z_mult.
    change (inject_Z 32) with 32. lra.
  - rewrite Zlt_Qlt, inject_Z_plus, inject_Z_mult.
    change (inject_Z 32) with 32.
    unfold Z.sub in Hlt. rewrite inject_Z_plus in Hlt.
    change (inject_Z (Z.opp 1)) with (-1 # 1) in Hlt. lra.
  - by exists c.
Qed.

Lemma padded_dim_least (d m : Z) :
  (32 | m)%Z -> (d <= m)%Z -> (padded_dim d <= m)%Z.
Proof.
  intros [k ->] Hd. destruct (padded_dim_bounds d) as [[_ Hlt] [c Hc]].
  rewrite Hc in *. lia.
Qed.

Lemma pad_offset_div (W d : Z) : pad_offset W d = ((W - d) / 2)%Z.
Proof.
  unfold pad_offset. symmetry. apply (Zdiv_Qdiv (W - d) 2).
Qed.

(** The padded extent and the offset of one axis, as natural numbers. *)
Lemma padded_dim_nat (d : nat) :
  let W := Z.to_nat (padded_dim (Z.of_nat d)) in
  (d <= W < d + 32)%nat /\ Nat.divide 32 W /\
  (forall m, Nat.divide 32 m -> (d <= m)%nat -> (W <= m)%nat) /\
  Z.to_nat (pad_offset (Z.of_nat W) (Z.of_nat d)) = ((W - d) / 2)%nat.
Proof.
  intros W. destruct (padded_dim_bounds (Z.of_nat d)) as [[Hlo Hhi] [c Hc]].
  assert (HW : Z.of_nat W = padded_dim (Z.of_nat d)) by (unfold W; lia).
  repeat split.
  - lia.
  - lia.
  - exists (Z.to_nat c). lia.
  - intros m [k ->] Hm.
    assert (padded_dim (Z.of_nat d) <= Z.of_nat (k * 32))%Z; [| lia].
    apply padded_dim_least; [| lia]. exists (Z.of_nat k). lia.
  - rewrite pad_offset_div, <- Nat2Z.inj_sub by lia.
    change 2%Z with (Z.of_nat 2). rewrite <- Nat2Z.inj_div. apply Nat2Z.id.
Qed.

(** ** Slices *)

Lemma slice_map {A B : Type} (f : A -> B) (a b : nat) (l : list A) :
  slice a b (map f l) = map f (slice a b l).
Proof. unfold slice. by rewrite skipn_map, firstn_map. Qed.

Lemma slice_pad_axis {A : Type} (o W : nat) (z : A) (l : list A) :
  slice o (o + length l) (pad_axis o W z l) = l.
Proof.
  unfold slice, pad_axis.
  rewrite drop_app_length' by (by rewrite length_replicate).
  replace (o + length l - o)%nat with (length l) by lia.
  apply take_app_length.
Qed.

Lemma length_pad_axis {A : Type} (o W : nat) (z : A) (l : list A) :
  (o + length l <= W)%nat -> length (pad_axis o W z l) = W.
Proof.
  intros H. unfold pad_axis. rewrite !length_app, !length_replicate. lia.
Qed.

Lemma length_slice {A : Type} (a d : nat) (l : list A) :
  (a + d <= length l)%nat -> length (slice a (a + d) l) = d.
Proof.
  intros H. unfold slice. rewrite length_take, length_drop. lia.
Qed.

(** Assigning into a slice of a constant list. *)
Lemma set_slice_replicate {A B : Type} (upd : A -> B -> A) (o W : nat)
    (z : A) (src : list B) :
  (o + length src <= W)%nat ->
  set_slice upd o (replicate W z) src = pad_axis o W z (map (upd z) src).
Proof.
  unfold pad_axis. rewrite length_map. revert W.
  induction o as [|o IH]; intros W H.
  - simpl. revert W H. induction src as [|b src IHs]; intros W H; simpl.
    + rewrite Nat.sub_0_r. by destruct W.
    + destruct W as [|W]; simpl in *; [lia |].
      f_equal. rewrite IHs by lia. do 2 f_equal. lia.
  - destruct W as [|W]; simpl in *; [lia |].
    f_equal. rewrite IH by lia. done.
Qed.

(** ** Shapes *)

Lemma spatial_shape_add_axes {A : Type} (im : vol3 A) :
  spatial_shape (add_batch_and_channel im) = shape3 im.
Proof.
  unfold spatial_shape, add_batch_and_channel, shape3. simpl.
  rewrite length_map. destruct im as [|[|r p] im]; simpl; try done.
  by rewrite !length_map.
Qed.

Lemma shape3_of_has_shape3 {A : Type} (d0 d1 d2 : nat) (im : vol3 A) :
  has_shape3 d0 d1 d2 im -> (0 < d0)%nat -> (0 < d1)%nat ->
  shape3 im = (d0, d1, d2).
Proof.
  intros [H0 H] Hd0 Hd1. unfold shape3.
  destruct im as [|p im]; simpl in *; [lia |].
  apply Forall_cons in H as [[Hp Hr] _].
  destruct p as [|r p]; simpl in *; [lia |].
  apply Forall_cons in Hr as [Hr _]. by rewrite H0, Hp, Hr.
Qed.

Lemma concat_all_nil {A : Type} (l : list (list A)) :
  Forall (fun x => x = []) l -> concat l = [].
Proof. induction 1 as [|x l -> _ IH]; [done | by simpl]. Qed.

(** A volume with entries has positive extents. *)
Lemma has_shape3_positive {A : Type} (d0 d1 d2 : nat) (im : vol3 A) :
  has_shape3 d0 d1 d2 im -> flatten3 im <> [] ->
  (0 < d0)%nat /\ (0 < d1)%nat /\ (0 < d2)%nat.
Proof.
  intros [H0 H] Hne. unfold flatten3 in Hne. repeat split.
  - destruct im; simpl in *; [done | lia].
  - destruct d1; [| lia]. exfalso. apply Hne.
    rewrite (concat_all_nil im); [done |].
    eapply Forall_impl; [exact H |]. intros p [Hp _]. by destruct p.
  - destruct d2; [| lia]. exfalso. apply Hne.
    apply concat_all_nil. apply Forall_concat.
    eapply Forall_impl; [exact H |]. intros p [_ Hr].
    eapply Forall_impl; [exact Hr |]. intros r Hlen. by destruct r.
Qed.

Lemma normalize_has_entries (im0 im : vol3 Q) :
  normalize im0 = inr im -> flatten3 im <> [].
Proof.
  unfold normalize, subtract_min. intros H.
  destruct (Num.np_min (flatten3 im0)) as [m|] eqn:Hm; simpl in H; [| done].
  destruct (Num.np_max _) as [M|] eqn:HM; [| done].
  destruct (Qeq_bool M 0); [done |]. injection H as <-.
  rewrite !flatten3_map3. destruct (flatten3 im0); [done | by simpl].
Qed.

Lemma has_shape3_map3 {A B : Type} (f : A -> B) (d0 d1 d2 : nat) (v : vol3 A) :
  has_shape3 d0 d1 d2 v -> has_shape3 d0 d1 d2 (map3 f v).
Proof.
  intros [H0 H]. unfold map3. split; [by rewrite length_map |].
  apply List.Forall_map. eapply Forall_impl; [exact H |].
  intros p [Hp Hr]. split; [by rewrite length_map |].
  apply List.Forall_map. eapply Forall_impl; [exact Hr |].
  intros r Hlen. by rewrite length_map.
Qed.

Lemma Forall_slice {A : Type} (P : A -> Prop) (a b : nat) (l : list A) :
  Forall P l -> Forall P (slice a b l).
Proof. intros H. unfold slice. by apply Forall_take, Forall_drop. Qed.

Lemma has_shape3_crop3 {A : Type} (o0 o1 o2 d0 d1 d2 W0 W1 W2 : nat)
    (v : vol3 A) :
  has_shape3 W0 W1 W2 v ->
  (o0 + d0 <= W0)%nat -> (o1 + d1 <= W1)%nat -> (o2 + d2 <= W2)%nat ->
  has_shape3 d0 d1 d2 (crop3 o0 o1 o2 d0 d1 d2 v).
Proof.
  intros [H0 H] B0 B1 B2. unfold crop3. split.
  - rewrite length_map. apply length_slice. lia.
  - apply List.Forall_map. apply Forall_slice.
    eapply Forall_impl; [exact H |]. intros p [Hp Hr]. split.
    + rewrite length_map. apply length_slice. lia.
    + apply List.Forall_map. apply Forall_slice.
      eapply Forall_impl; [exact Hr |]. intros r Hlen. simpl in Hlen.
      apply length_slice. lia.
Qed.

Lemma concat_singletons_length {A : Type} (r : list (list A)) :
  Forall (fun ch => length ch = 1%nat) r -> length (concat r) = length r.
Proof.
  induction 1 as [|ch r Hch _ IH]; [done |].
  simpl. rewrite length_app. lia.
Qed.

Lemma has_shape3_squeeze {A : Type} (W0 W1 W2 : nat) (t : tensor5 A) :
  has_shape5 1 W0 W1 W2 1 t -> has_shape3 W0 W1 W2 (np_squeeze t).
Proof.
  intros [Hb H]. unfold np_squeeze.
  destruct t as [|v [|? ?]]; simpl in Hb; try lia.
  apply Forall_cons in H as [[H0 H] _]. simpl. rewrite app_nil_r.
  split; [by rewrite length_map |].
  apply List.Forall_map. eapply Forall_impl; [exact H |].
  intros p [Hp Hr]. split; [by rewrite length_map |].
  apply List.Forall_map. eapply Forall_impl; [exact Hr |].
  intros r [Hlen Hch]. by rewrite concat_singletons_length.
Qed.

(** ** Padding and cropping *)

(** The block assignment of line 146 into the zero tensor of line 145 puts
    the volume at the offsets and leaves zeros around it. *)
Lemma assign_block_full5 {A : Type} (z : A) (o0 o1 o2 W0 W1 W2 d0 d1 d2 : nat)
    (im : vol3 A) :
  has_shape3 d0 d1 d2 im ->
  (o0 + d0 <= W0)%nat -> (o1 + d1 <= W1)%nat -> (o2 + d2 <= W2)%nat ->
  assign_block o0 o1 o2 (full5 z W0 W1 W2) (add_batch_and_channel im) =
  placed_at z o0 o1 o2 W0 W1 W2 im.
Proof.
  intros [H0 H] B0 B1 B2.
  unfold assign_block, full5, add_batch_and_channel, placed_at. simpl.
  f_equal. rewrite set_slice_replicate by (rewrite length_map; lia).
  f_equal. rewrite map_map. apply map_ext_Forall.
  eapply Forall_impl; [exact H |]. intros p [Hp Hr]. simpl.
  rewrite set_slice_replicate by (rewrite length_map; lia).
  f_equal. rewrite map_map. apply map_ext_Forall.
  eapply Forall_impl; [exact Hr |]. intros r Hlen. simpl in *.
  rewrite set_slice_replicate by (rewrite length_map; lia).
  f_equal. apply map_id.
Qed.

Lemma concat_replicate_singleton {A : Type} (n : nat) (z : A) :
  concat (replicate n [z]) = replicate n z.
Proof. induction n as [|n IH]; [done | simpl; by rewrite IH]. Qed.

Lemma concat_map_singleton {A : Type} (r : list A) :
  concat (map (fun x => [x]) r) = r.
Proof. induction r as [|x r IH]; [done | simpl; by rewrite IH]. Qed.

(** Squeezing and cropping a placed volume gives the volume back. *)
Lemma crop3_placed_at {A : Type} (z : A) (o0 o1 o2 W0 W1 W2 d0 d1 d2 : nat)
    (im : vol3 A) :
  has_shape3 d0 d1 d2 im ->
  crop3 o0 o1 o2 d0 d1 d2 (np_squeeze (placed_at z o0 o1 o2 W0 W1 W2 im)) = im.
Proof.
  intros [H0 H]. unfold crop3, np_squeeze, placed_at. simpl.
  rewrite app_nil_r, slice_map.
  replace d0 with
    (length (map (fun p => pad_axis o1 W1 (replicate W2 [z])
       (map (fun r => pad_axis o2 W2 [z] (map (fun x => [x]) r)) p)) im))
    at 1 by (by rewrite length_map).
  rewrite slice_pad_axis, !map_map.
  rewrite <- (map_id im) at 2. apply map_ext_Forall.
  eapply Forall_impl; [exact H |]. intros p [Hp Hr]. simpl.
  rewrite slice_map.
  replace d1 with
    (length (map (fun r => pad_axis o2 W2 [z] (map (fun x => [x]) r)) p))
    at 1 by (by rewrite length_map).
  rewrite slice_pad_axis, !map_map.
  rewrite <- (map_id p) at 2. apply map_ext_Forall.
  eapply Forall_impl; [exact Hr |]. intros r Hlen. simpl in *.
  unfold pad_axis at 1. rewrite !concat_app, !concat_replicate_singleton.
  rewrite concat_map_singleton, length_map.
  change (replicate o2 z ++ r ++ replicate (W2 - o2 - length r) z)
    with (pad_axis o2 W2 z r).
  rewrite <- Hlen. apply slice_pad_axis.
Qed.

Lemma has_shape5_placed_at {A : Type} (z : A)
    (o0 o1 o2 W0 W1 W2 d0 d1 d2 : nat) (im : vol3 A) :
  has_shape3 d0 d1 d2 im ->
  (o0 + d0 <= W0)%nat -> (o1 + d1 <= W1)%nat -> (o2 + d2 <= W2)%nat ->
  has_shape5 1 W0 W1 W2 1 (placed_at z o0 o1 o2 W0 W1 W2 im).
Proof.
  intros [H0 H] B0 B1 B2. unfold placed_at. split; [done |].
  apply Forall_singleton.
  assert (Hrow : Forall (fun ch : list A => length ch = 1%nat)
                   (replicate W2 [z])) by by apply Forall_replicate.
  assert (Hplane : Forall (fun r : list (list A) => length r = W2 /\
                     Forall (fun ch => length ch = 1%nat) r)
                     (replicate W1 (replicate W2 [z]))).
  { apply Forall_replicate. split; [apply length_replicate | done]. }
  split; [apply length_pad_axis; rewrite length_map; lia |].
  unfold pad_axis at 1. rewrite !Forall_app. split; [| split].
  - apply Forall_replicate. split; [apply length_replicate | done].
  - apply List.Forall_map. eapply Forall_impl; [exact H |].
    intros p [Hp Hr]. simpl.
    split; [apply length_pad_axis; rewrite length_map; lia |].
    unfold pad_axis at 1. rewrite !Forall_app. split; [| split].
    + apply Forall_replicate. split; [apply length_replicate | done].
    + apply List.Forall_map. eapply Forall_impl; [exact Hr |].
      intros r Hlen. simpl in *.
      split; [apply length_pad_axis; rewrite length_map; lia |].
      unfold pad_axis. rewrite !Forall_app. split; [| split].
      * by apply Forall_replicate.
      * apply List.Forall_map. by apply Forall_true.
      * by apply Forall_replicate.
    + apply Forall_replicate. split; [apply length_replicate | done].
  - apply Forall_replicate. split; [apply length_replicate | done].
Qed.

Lemma off_of_fits (d : nat) : (off_of d + d <= W_of d)%nat.
Proof.
  unfold off_of. destruct (padded_dim_nat d) as [[Hlo _] _]. fold (W_of d) in Hlo.
  assert ((W_of d - d) / 2 <= W_of d - d)%nat by (apply Nat.Div0.div_le_upper_bound; lia).
  lia.
Qed.

Lemma pad_offsets_eq (d0 d1 d2 : nat) :
  pad_offsets (d0, d1, d2) = (off_of d0, off_of d1, off_of d2).
Proof.
  unfold pad_offsets, padded_shape, off_of, W_of.
  destruct (padded_dim_nat d0) as (_ & _ & _ & ->).
  destruct (padded_dim_nat d1) as (_ & _ & _ & ->).
  by destruct (padded_dim_nat d2) as (_ & _ & _ & ->).
Qed.

Lemma pad_volume_placed_at {A : Type} (z : A) (d0 d1 d2 : nat) (im : vol3 A) :
  has_shape3 d0 d1 d2 im -> (0 < d0)%nat -> (0 < d1)%nat ->
  pad_volume z im =
  placed_at z (off_of d0) (off_of d1) (off_of d2)
              (W_of d0) (W_of d1) (W_of d2) im.
Proof.
  intros Hs Hd0 Hd1. unfold pad_volume.
  rewrite spatial_shape_add_axes, (shape3_of_has_shape3 d0 d1 d2) by done.
  rewrite pad_offsets_eq. unfold padded_shape. fold (W_of d0) (W_of d1) (W_of d2).
  apply (assign_block_full5 z _ _ _ _ _ _ d0 d1 d2); [done | | |];
    apply off_of_fits.
Qed.

Lemma crop_to_input_crop3 {A B : Type} (d0 d1 d2 : nat) (im : vol3 A)
    (pred : vol3 B) :
  has_shape3 d0 d1 d2 im -> (0 < d0)%nat -> (0 < d1)%nat ->
  crop_to_input im pred =
  crop3 (off_of d0) (off_of d1) (off_of d2) d0 d1 d2 pred.
Proof.
  intros Hs Hd0 Hd1. unfold crop_to_input.
  rewrite spatial_shape_add_axes, (shape3_of_has_shape3 d0 d1 d2) by done.
  by rewrite pad_offsets_eq.
Qed.

(** C3. Padding and the final crop (lines 141-146 and 160).  For a
    normalised volume of shape [(d0, d1, d2)], each padded extent
    [W_of di = ceil(di / 32) * 32] is the least multiple of 32 that is at
    least [di]; the tensor the network is run on has shape
    [(1, W0, W1, W2, 1)] and is the volume placed at the offsets
    [floor((Wi - di) / 2)] with zeros around it; squeezing and cropping that
    tensor with the crop of line 160 gives the volume back; and whatever the
    network returns in that shape, the prediction that is saved has shape
    [(d0, d1, d2)]. *)
Theorem padding_round_trip (im0 im : vol3 Q) (d0 d1 d2 : nat) :
  normalize im0 = inr im ->
  has_shape3 d0 d1 d2 im ->
  (forall d, In d [d0; d1; d2] ->
     Z.of_nat (W_of d) = (Qceiling (inject_Z (Z.of_nat d) / 32) * 32)%Z /\
     Nat.divide 32 (W_of d) /\ (d <= W_of d)%nat /\
     (forall m, Nat.divide 32 m -> (d <= m)%nat -> (W_of d <= m)%nat) /\
     Z.of_nat (off_of d) =
       Qfloor (inject_Z (Z.of_nat (W_of d) - Z.of_nat d) / 2)) /\
  has_shape5 1 (W_of d0) (W_of d1) (W_of d2) 1 (pad_volume 0 im) /\
  pad_volume 0 im =
    placed_at 0 (off_of d0) (off_of d1) (off_of d2)
                (W_of d0) (W_of d1) (W_of d2) im /\
  crop_to_input im (np_squeeze (pad_volume 0 im)) = im /\
  (forall output,
     has_shape5 1 (W_of d0) (W_of d1) (W_of d2) 1 output ->
     has_shape3 d0 d1 d2 (postprocess im output)).
Proof.
  intros Hnorm Hs.
  destruct (has_shape3_positive d0 d1 d2 im Hs (normalize_has_entries _ _ Hnorm))
    as (Hd0 & Hd1 & Hd2).
  pose proof (off_of_fits d0) as F0. pose proof (off_of_fits d1) as F1.
  pose proof (off_of_fits d2) as F2.
  split; [| split; [| split; [| split]]].
  - intros d _. destruct (padded_dim_nat d) as ([Hlo Hhi] & Hdiv & Hleast & Hoff).
    fold (W_of d) in *. repeat split; try done.
    + unfold W_of, padded_dim.
      pose proof (padded_dim_bounds (Z.of_nat d)) as [[? _] _].
      unfold padded_dim in *. lia.
    + unfold off_of. rewrite <- Hoff. unfold pad_offset.
      rewrite Z2Nat.id; [done |].
      fold (pad_offset (Z.of_nat (W_of d)) (Z.of_nat d)).
      rewrite pad_offset_div. apply Z.div_pos; lia.
  - rewrite (pad_volume_placed_at 0 d0 d1 d2) by done.
    apply (has_shape5_placed_at 0 _ _ _ _ _ _ d0 d1 d2); [done | lia..].
  - by apply pad_volume_placed_at.
  - rewrite (pad_volume_placed_at 0 d0 d1 d2) by done.
    rewrite (crop_to_input_crop3 d0 d1 d2) by done.
    by apply crop3_placed_at.
  - intros output Hout. unfold postprocess.
    rewrite (crop_to_input_crop3 d0 d1 d2) by done.
    apply (has_shape3_crop3 _ _ _ _ _ _ (W_of d0) (W_of d1) (W_of d2));
      [| lia..].
    unfold masked_assign. do 3 apply has_shape3_map3.
    by apply has_shape3_squeeze.
Qed.

Lemma padding_round_trip_witness :
  W_of 2 = 32%nat /\ off_of 2 = 15%nat /\
  crop_to_input Toy.image_a_normalized
    (np_squeeze (pad_volume 0 Toy.image_a_normalized))
    = Toy.image_a_normalized /\
  has_shape3 1 2 2
    (postprocess Toy.image_a_normalized (pad_volume 0 Toy.image_a_normalized)).
Proof.
  assert (Hn : normalize Toy.image_a = inr Toy.image_a_normalized)
    by (vm_compute; reflexivity).
  assert (Hs : has_shape3 1 2 2 Toy.image_a_normalized)
    by (split; [reflexivity | repeat constructor]).
  destruct (padding_round_trip Toy.image_a Toy.image_a_normalized 1 2 2 Hn Hs)
    as (_ & Hshape & _ & Hcrop & Hpost).
  split; [vm_compute; reflexivity |].
  split; [vm_compute; reflexivity |].
  split; [exact Hcrop |].
  apply Hpost, Hshape.
Defined.

(** ** Postprocessing *)

Lemma crop3_map3 {A B : Type} (f : A -> B) (a0 a1 a2 d0 d1 d2 : nat)
    (v : vol3 A) :
  crop3 a0 a1 a2 d0 d1 d2 (map3 f v) = map3 f (crop3 a0 a1 a2 d0 d1 d2 v).
Proof.
  unfold crop3, map3. rewrite slice_map, !map_map. apply map_ext.
  intros p. rewrite slice_map, !map_map. apply map_ext.
  intros r. apply slice_map.
Qed.

Lemma crop_to_input_map3 {A B C : Type} (f : B -> C) (im : vol3 A)
    (v : vol3 B) :
  crop_to_input im (map3 f v) = map3 f (crop_to_input im v).
Proof.
  unfold crop_to_input. destruct (spatial_shape _) as [[d0 d1] d2].
  destruct (pad_offsets _) as [[i0 i1] i2]. apply crop3_map3.
Qed.

Lemma map3_map3 {A B C : Type} (f : A -> B) (g : B -> C) (v : vol3 A) :
  map3 g (map3 f v) = map3 (fun x => g (f x)) v.
Proof.
  unfold map3. rewrite map_map. apply map_ext. intros p.
  rewrite map_map. apply map_ext. intros r. apply map_map.
Qed.

Lemma map3_ext {A B : Type} (f g : A -> B) (v : vol3 A) :
  (forall x, f x = g x) -> map3 f v = map3 g v.
Proof.
  intros H. unfold map3. apply map_ext. intros p. apply map_ext. intros r.
  by apply map_ext.
Qed.

Lemma mul255_reduced (x : Q) : Num.mul 255 x == 255 * x.
Proof. apply Qred_correct. Qed.

(** What one entry of the prediction becomes. *)
Lemma rescale_and_clip_spec (x : Q) :
  0 <= rescale_and_clip x <= 128 /\
  (255 * x < 0 -> rescale_and_clip x = 0) /\
  (128 < 255 * x -> rescale_and_clip x = 128) /\
  (0 <= 255 * x <= 128 -> rescale_and_clip x = Qred (255 * x)).
Proof.
  unfold rescale_and_clip. pose proof (mul255_reduced x) as E.
  destruct (Num.ltb (Num.mul 255 x) 0) eqn:Elt.
  - apply ltb_lt in Elt. repeat split; try lra; intros; try done; lra.
  - apply ltb_ge in Elt. destruct (Num.gtb (Num.mul 255 x) 128) eqn:Egt.
    + apply gtb_gt in Egt. repeat split; try lra; intros; try done; lra.
    + apply gtb_le in Egt. repeat split; try lra; intros; try done; lra.
Qed.

Lemma two_passes_rescale_and_clip (x : Q) :
  (fun y => if Num.gtb y 128 then 128 else y)
    ((fun y => if Num.ltb y 0 then 0 else y) (Num.mul 255 x))
  = rescale_and_clip x.
Proof.
  unfold rescale_and_clip. simpl. by destruct (Num.ltb (Num.mul 255 x) 0).
Qed.

Lemma clip_then_rescale (x : Q) :
  Num.mul 255
    ((fun y => if Num.gtb y (128 # 255) then 128 # 255 else y)
       ((fun y => if Num.ltb y 0 then 0 else y) x))
  = rescale_and_clip x.
Proof.
  unfold rescale_and_clip. simpl. pose proof (mul255_reduced x) as E.
  destruct (Num.ltb x 0) eqn:Elt.
  - apply ltb_lt in Elt.
    assert (Num.ltb (Num.mul 255 x) 0 = true) as -> by (apply ltb_lt; lra).
    reflexivity.
  - apply ltb_ge in Elt.
    assert (Num.ltb (Num.mul 255 x) 0 = false) as -> by (apply ltb_ge; lra).
    destruct (Num.gtb x (128 # 255)) eqn:Egt.
    + apply gtb_gt in Egt.
      assert (Num.gtb (Num.mul 255 x) 128 = true) as ->
        by (apply gtb_gt; lra).
      reflexivity.
    + apply gtb_le in Egt.
      assert (Num.gtb (Num.mul 255 x) 128 = false) as ->
        by (apply gtb_le; lra).
      reflexivity.
Qed.

Lemma postprocess_entrywise (im : vol3 Q) (output : tensor5 Q) :
  postprocess im output =
  crop_to_input im (map3 rescale_and_clip (np_squeeze output)).
Proof.
  unfold postprocess, masked_assign. rewrite !map3_map3. f_equal.
  apply map3_ext. intros x. apply two_passes_rescale_and_clip.
Qed.

Lemma postprocess_orders_agree (im : vol3 Q) (output : tensor5 Q) :
  postprocess im output = postprocess_crop_clip_rescale im output.
Proof.
  rewrite postprocess_entrywise. unfold postprocess_crop_clip_rescale.
  unfold masked_assign. rewrite !map3_map3, crop_to_input_map3.
  apply map3_ext. intros x. symmetry. apply clip_then_rescale.
Qed.

(** ** Runs of the script *)

Lemma same_settings_refl (w : world) : same_settings w w.
Proof. by repeat split. Qed.

Lemma same_settings_trans (w1 w2 w3 : world) :
  same_settings w1 w2 -> same_settings w2 w3 -> same_settings w1 w3.
Proof.
  intros (? & ? & ?) (? & ? & ?). repeat split; congruence.
Qed.

Section Runs.
Context `{Ext : Externals}.

(** One iteration of the loop: it leaves the settings alone, it extends
    the trace by a prefix of the steps of an image, by all of them when it
    returns, and then it has saved the postprocessed output of the network
    for the prepared volume and nothing else. *)
Lemma process_image_run (args : arguments) (idx : nat) (pi pp : string)
    (w w' : world) (r : result unit) :
  process_image args idx (pi, pp) w = (r, w') ->
  same_settings w w' /\
  exists t, trace w' = trace w ++ t /\
    t `prefix_of` image_trace args idx (pi, pp) /\
    match r with
    | inl _ => saved w' = saved w
    | inr _ =>
        t = image_trace args idx (pi, pp) /\
        exists loaded im aff2,
          load_volume pi = inr loaded /\
          prepare args loaded = inr (im, aff2) /\
          saved w' =
            saved w ++ [(pp, (postprocess im (network_output args im), aff2))]
    end.
Proof.
  unfold process_image, image_trace, image_steps, prepare, network_output.
  unfold bind, emit, modify, call, lift, ret, raise. simpl.
  intros H. split.
  - repeat run_step; injection H as <- <-; by repeat split.
  - repeat run_step; injection H as <- <-; simpl;
      rewrite <- ?app_assoc; simpl;
      (eexists; split; [reflexivity |]); simpl.
    all: try (split; [by eexists | done]).
    all: split; [reflexivity |]; split; [done |].
    all: eexists (_, _, _), _, _; split; [reflexivity |].
    all: repeat match goal with
           | E : _ = _ |- _ => rewrite E; clear E
         end; by simpl.
Qed.

Lemma for_each_cons {A : Type} (body : nat -> A -> M unit) (idx : nat)
    (x : A) (l : list A) (w : world) :
  for_each body idx (x :: l) w =
  match body idx x w with
  | (inl e, w1) => (inl e, w1)
  | (inr _, w1) => for_each body (S idx) l w1
  end.
Proof. reflexivity. Qed.

Lemma loop_trace_cons (args : arguments) (idx : nat) (f : string * string)
    (files : list (string * string)) :
  loop_trace args idx (f :: files) =
  image_trace args idx f ++ loop_trace args (S idx) files.
Proof. reflexivity. Qed.

(** The loop: the images are processed one after the other. *)
Lemma for_each_run (args : arguments) (files : list (string * string))
    (idx : nat) (w w' : world) (r : result unit) :
  for_each (process_image args) idx files w = (r, w') ->
  same_settings w w' /\
  exists t, trace w' = trace w ++ t /\
    t `prefix_of` loop_trace args idx files /\
    (forall u, r = inr u -> t = loop_trace args idx files).
Proof.
  revert idx w. induction files as [|[pi pp] files IH]; intros idx w H.
  - simpl in H. unfold ret in H. injection H as <- <-.
    split; [apply same_settings_refl |].
    exists []. by rewrite app_nil_r.
  - rewrite for_each_cons in H. rewrite loop_trace_cons.
    destruct (process_image args idx (pi, pp) w) as [r1 w1] eqn:E1.
    destruct (process_image_run _ _ _ _ _ _ _ E1)
      as (Hs1 & t1 & Ht1 & Hp1 & Hr1).
    destruct r1 as [e|[]].
    + injection H as <- <-. split; [done |]. exists t1.
      split; [done |]. split; [| done].
      by apply prefix_app_r.
    + destruct Hr1 as [-> _].
      destruct (IH _ _ H) as (Hs2 & t2 & Ht2 & Hp2 & Hr2).
      split; [by eapply same_settings_trans |].
      exists (image_trace args idx (pi, pp) ++ t2).
      split; [by rewrite Ht2, Ht1, app_assoc |]. split.
      * by apply prefix_app.
      * intros u Hu. f_equal. by eapply Hr2.
Qed.

(** The dispatch on the input path. *)
Lemma discover_run (args : arguments) (w w' : world)
    (r : result (list string * list string)) :
  discover args w = (r, w') ->
  same_settings w w' /\
  exists t, trace w' = trace w ++ t /\
    t `prefix_of` discover_trace args /\
    (forall images preds, r = inr (images, preds) ->
       t = discover_trace args /\
       zip images preds = files_to_process args).
Proof.
  unfold discover, discover_trace, files_to_process.
  unfold bind, emit, modify, call, lift, ret, raise. simpl.
  intros H. split.
  - repeat run_step; injection H as <- <-; by repeat split.
  - repeat run_step; injection H as <- <-; simpl;
      rewrite <- ?app_assoc; simpl;
      (eexists; split; [reflexivity |]); simpl.
    all: split; [first [reflexivity | by eexists] |].
    all: intros images preds [= <- <-]; by split.
Qed.

(** The whole script: what it does to the settings, and its trace.  The
    set-up always runs to the call of [load_weights]; what follows is a
    prefix of the dispatch and the loop, all of it when the script
    returns. *)
Lemma main_run (cl : command_line) (w w' : world) (r : result unit) :
  main cl w = (r, w') ->
  let args := parse_args cl in
  environ w' =
    (if given_cpu cl then <["CUDA_VISIBLE_DEVICES" := "-1"]> (environ w)
     else environ w) /\
  intra_op_threads w' = default 1%Z (given_threads cl) /\
  inter_op_threads w' = inter_op_threads w /\
  exists t, trace w' = trace w ++ setup_trace args ++ t /\
    t `prefix_of`
      discover_trace args ++ loop_trace args 0 (files_to_process args) /\
    (forall u, r = inr u ->
       t = discover_trace args ++ loop_trace args 0 (files_to_process args)).
Proof.
  unfold main. intros H. set (args := parse_args cl) in *. revert H.
  set (rest := discover_trace args ++ loop_trace args 0 (files_to_process args)).
  unfold bind at 1 2 3 4 5 6 7 8 9 10 11 12.
  unfold emit, modify, call, ret, raise.
  intros H. cbv beta iota zeta in H.
  assert (Hsetup : forall w0 r0 wd,
    bind (discover args)
      (fun '(images_to_segment, path_predictions) =>
         for_each (process_image args) 0
           (zip images_to_segment path_predictions)) w0 = (r0, wd) ->
    same_settings w0 wd /\
    exists t, trace wd = trace w0 ++ t /\ t `prefix_of` rest /\
      (forall u, r0 = inr u -> t = rest)).
  { intros w0 r0 wd Hb. unfold bind in Hb.
    destruct (discover args w0) as [rd w1] eqn:Ed.
    destruct (discover_run _ _ _ _ Ed) as (Hs1 & t1 & Ht1 & Hp1 & Hr1).
    destruct rd as [e | [images preds]].
    - injection Hb as <- <-. split; [done |]. exists t1.
      split; [done |]. split; [by apply prefix_app_r | done].
    - destruct (Hr1 _ _ eq_refl) as [-> Hfiles]. rewrite Hfiles in Hb.
      destruct (for_each_run _ _ _ _ _ _ Hb) as (Hs2 & t2 & Ht2 & Hp2 & Hr2).
      split; [by eapply same_settings_trans |].
      exists (discover_trace args ++ t2).
      split; [by rewrite Ht2, Ht1, app_assoc |]. split.
      + by apply prefix_app.
      + intros u Hu. unfold rest. f_equal. by eapply Hr2. }
  unfold setup_trace.
  change (cpu args) with (given_cpu cl) in *.
  change (threads args) with (default 1%Z (given_threads cl)) in *.
  destruct (given_cpu cl); cbv beta iota in H;
    (destruct (load_weights (weights_path args)) as [msg|[]];
     cbv beta iota in H;
     [ injection H as <- <-; simpl; repeat (split; [done |]);
       rewrite <- ?app_assoc; simpl;
       exists []; split; [reflexivity |]; split; [by eexists | done]
     | destruct (Hsetup _ _ _ H) as ((He & Hi & Ho) & t & Ht & Hp & Hr);
       simpl in *; repeat (split; [congruence |]);
       rewrite <- ?app_assoc in Ht; simpl in Ht;
       exists t; split; [exact Ht |]; split; [done |];
       intros u Hu; by rewrite (Hr u Hu) ]).
Qed.

(** *** Order of the steps in the expected trace *)






Lemma no_thread_event_in_loop (args : arguments) (k : nat)
    (files : list (string * string)) :
  List.filter is_thread_event (loop_trace args k files) = [].
Proof.
  revert k. induction files as [|f files IH]; intros k; [done |].
  rewrite loop_trace_cons, List.filter_app, IH, app_nil_r.
  unfold image_trace, image_steps.
  by destruct (ct args), (disable_flipping args).
Qed.

Lemma filter_nil_prefix {A : Type} (P : A -> bool) (t T : list A) :
  t `prefix_of` T -> List.filter P T = [] -> List.filter P t = [].
Proof.
  intros [k ->]. rewrite List.filter_app. intros H.
  by apply app_eq_nil in H as [? _].
Qed.

End Runs.



(** C8. CPU enforcement (lines 57-63).  With [--cpu] the run ends with
    [CUDA_VISIBLE_DEVICES] set to ["-1"], and the assignment is the step
    right before the script's [import tensorflow], which is the first
    import of that name in the trace.  Without [--cpu] the environment is
    as the script found it.  In both cases every other variable is
    untouched. *)
Theorem cpu_flag_environ `{Ext : Externals} (cl : command_line) (w w' : world)
    (r : result unit) :
  main cl w = (r, w') ->
  (given_cpu cl = true ->
     environ w' = <["CUDA_VISIBLE_DEVICES" := "-1"]> (environ w) /\
     exists pre post,
       trace w' =
         trace w ++ pre ++
         [EvSetEnviron "CUDA_VISIBLE_DEVICES" "-1"; EvImport "tensorflow"] ++
         post /\
       ~ In (EvImport "tensorflow") pre) /\
  (given_cpu cl = false -> environ w' = environ w) /\
  (forall k, k <> "CUDA_VISIBLE_DEVICES" -> environ w' !! k = environ w !! k).
Proof.
  intros H. destruct (main_run cl w w' r H) as (He & _ & _ & t & Ht & _).
  split; [| split].
  - intros Hcpu. rewrite Hcpu in He. split; [done |].
    unfold setup_trace in Ht. change (cpu (parse_args cl)) with (given_cpu cl) in Ht.
    rewrite Hcpu in Ht.
    exists [EvImport "ext.neuron.models"; EvImport "ext.lab2im.utils";
            EvImport "ext.lab2im.edit_volumes"; EvParseArgs].
    exists ([EvSetIntraOpThreads (threads (parse_args cl)); EvBuildUnet;
             EvLoadWeights (weights_path (parse_args cl))] ++ t).
    split.
    + rewrite Ht. reflexivity.
    + simpl. intros [? | [? | [? | [? | []]]]]; discriminate.
  - intros Hcpu. by rewrite Hcpu in He.
  - intros k Hk. rewrite He. destruct (given_cpu cl); [| done].
    by rewrite lookup_insert_ne.
Qed.

Lemma cpu_flag_environ_witness :
  environ (main (Ext := Toy.ext) (Toy.folder_run true false false) Toy.world0).2
    = <["CUDA_VISIBLE_DEVICES" := "-1"]> (environ Toy.world0) /\
  environ (main (Ext := Toy.ext) (Toy.folder_run false false false) Toy.world0).2
    = environ Toy.world0 /\
  environ (main (Ext := Toy.ext) (Toy.folder_run true false false) Toy.world0).2
    !! "HOME" = Some "/root".
Proof.
  destruct (cpu_flag_environ (Ext := Toy.ext) (Toy.folder_run true false false)
              Toy.world0 _ _ (surjective_pairing _)) as (Hon & _ & Hframe).
  destruct (cpu_flag_environ (Ext := Toy.ext) (Toy.folder_run false false false)
              Toy.world0 _ _ (surjective_pairing _)) as (_ & Hoff & _).
  split; [apply Hon; reflexivity |].
  split; [apply Hoff; reflexivity |].
  rewrite Hframe by discriminate. reflexivity.
Defined.

(** C9. Thread configuration (lines 63-66).  The value of [--threads], 1
    when the option is absent, reaches
    [set_intra_op_parallelism_threads] as it is: it is the intra-op setting
    the run ends with, the call is the only step of the run that configures
    threads, and the inter-op setting is as the script found it. *)
Theorem threads_passed_through `{Ext : Externals} (cl : command_line)
    (w w' : world) (r : result unit) :
  main cl w = (r, w') ->
  threads (parse_args cl) = default 1%Z (given_threads cl) /\
  intra_op_threads w' = threads (parse_args cl) /\
  inter_op_threads w' = inter_op_threads w /\
  exists t, trace w' = trace w ++ t /\
    List.filter is_thread_event t =
      [EvSetIntraOpThreads (threads (parse_args cl))].
Proof.
  intros H. destruct (main_run cl w w' r H) as (_ & Hi & Ho & t & Ht & Hp & _).
  split; [done |]. split; [done |]. split; [done |].
  exists (setup_trace (parse_args cl) ++ t). split; [done |].
  rewrite List.filter_app, (filter_nil_prefix _ _ _ Hp), app_nil_r.
  - unfold setup_trace. by destruct (cpu (parse_args cl)).
  - rewrite List.filter_app, no_thread_event_in_loop, app_nil_r.
    unfold discover_trace. by destruct (is_directory_case _).
Qed.

Lemma threads_passed_through_witness :
  intra_op_threads
    (main (Ext := Toy.ext) (Toy.single_run "/in/a.nii.gz") Toy.world0).2 = 4%Z /\
  intra_op_threads
    (main (Ext := Toy.ext) (Toy.folder_run false false false) Toy.world0).2 = 1%Z.
Proof.
  destruct (threads_passed_through (Ext := Toy.ext)
              (Toy.single_run "/in/a.nii.gz") Toy.world0 _ _
              (surjective_pairing _)) as (_ & H4 & _).
  destruct (threads_passed_through (Ext := Toy.ext)
              (Toy.folder_run false false false) Toy.world0 _ _
              (surjective_pairing _)) as (_ & H1 & _).
  split; [exact H4 | exact H1].
Defined.

(** C4. Postprocessing (lines 156-163).  The prediction is the squeezed
    output of the network, each entry times 255 and clipped to [0, 128],
    cropped to the extent of the input; clipping and rescaling are
    entrywise, so cropping first, clipping to [0, 128/255] and rescaling
    last gives the same volume; and an iteration of the loop that returns
    has saved exactly this volume under the prediction path. *)
Theorem postprocessing `{Ext : Externals} (args : arguments) :
  (forall (im : vol3 Q) (output : tensor5 Q),
     postprocess im output =
       crop_to_input im (map3 rescale_and_clip (np_squeeze output)) /\
     postprocess im output = postprocess_crop_clip_rescale im output) /\
  (forall x,
     0 <= rescale_and_clip x <= 128 /\
     (255 * x < 0 -> rescale_and_clip x = 0) /\
     (128 < 255 * x -> rescale_and_clip x = 128) /\
     (0 <= 255 * x <= 128 -> rescale_and_clip x = Qred (255 * x))) /\
  (forall idx pi pp w w' u,
     process_image args idx (pi, pp) w = (inr u, w') ->
     exists im aff2,
       saved w' =
         saved w ++
         [(pp, (crop_to_input im
                  (map3 rescale_and_clip (np_squeeze (network_output args im))),
                aff2))]).
Proof.
  split; [| split].
  - intros im output. split.
    + apply postprocess_entrywise.
    + apply postprocess_orders_agree.
  - apply rescale_and_clip_spec.
  - intros idx pi pp w w' u H.
    destruct (process_image_run _ _ _ _ _ _ _ H)
      as (_ & t & _ & _ & _ & loaded & im & aff2 & _ & _ & Hsaved).
    exists im, aff2. by rewrite <- postprocess_entrywise.
Qed.

Lemma postprocessing_witness :
  saved (process_image (Ext := Toy.ext)
           (parse_args (Toy.folder_run false false true)) 0
           ("/in/a.nii.gz", "/out/a_SynthSR.nii.gz") Toy.world0).2
  = [("/out/a_SynthSR.nii.gz", ([[[0; 255 # 2]; [255 # 4; 128]]], np_eye4))].
Proof.
  destruct (postprocessing (Ext := Toy.ext)
              (parse_args (Toy.folder_run false false true)))
    as (_ & _ & Hsaved).
  destruct (Hsaved 0%nat "/in/a.nii.gz" "/out/a_SynthSR.nii.gz" Toy.world0
              (process_image (Ext := Toy.ext)
                 (parse_args (Toy.folder_run false false true)) 0
                 ("/in/a.nii.gz", "/out/a_SynthSR.nii.gz") Toy.world0).2 tt)
    as (im & aff2 & E).
  - vm_compute. reflexivity.
  - vm_compute. reflexivity.
Defined.

(** ** Entries of tensors *)

Lemma at5_map5 {A B : Type} (f : A -> B) (t : tensor5 A) (i j k : nat) :
  at5 (map5 f t) i j k = f <$> at5 t i j k.
Proof.
  unfold at5, map5. rewrite lookup_map.
  destruct (t !! 0%nat) as [v|]; simpl; [| done]. rewrite lookup_map.
  destruct (v !! i) as [p|]; simpl; [| done]. rewrite lookup_map.
  destruct (p !! j) as [r|]; simpl; [| done]. rewrite lookup_map.
  destruct (r !! k) as [ch|]; simpl; [| done]. apply lookup_map.
Qed.

Lemma at5_map5_2 {A : Type} (f : A -> A -> A) (s t : tensor5 A) (i j k : nat) :
  at5 (map5_2 f s t) i j k =
  match at5 s i j k, at5 t i j k with
  | Some a, Some b => Some (f a b)
  | _, _ => None
  end.
Proof.
  unfold at5, map5_2. rewrite lookup_zip_with.
  destruct (s !! 0%nat) as [v|], (t !! 0%nat) as [v'|]; simpl; try done.
  2: { by repeat case_match. }
  rewrite lookup_zip_with.
  destruct (v !! i) as [p|], (v' !! i) as [p'|]; simpl; try done.
  2: { by repeat case_match. }
  rewrite lookup_zip_with.
  destruct (p !! j) as [r|], (p' !! j) as [r'|]; simpl; try done.
  2: { by repeat case_match. }
  rewrite lookup_zip_with.
  destruct (r !! k) as [ch|], (r' !! k) as [ch'|]; simpl; try done.
  2: { by repeat case_match. }
  rewrite lookup_zip_with.
  by destruct (ch !! 0%nat), (ch' !! 0%nat).
Qed.

Lemma at5_flip {A : Type} (b W0 W1 W2 c : nat) (t : tensor5 A) (i j k : nat) :
  has_shape5 b W0 W1 W2 c t -> (i < W0)%nat ->
  at5 (np_flip_axis1 t) i j k = at5 t (W0 - 1 - i) j k.
Proof.
  intros [_ H] Hi. unfold at5, np_flip_axis1. rewrite lookup_map.
  destruct (t !! 0%nat) as [v|] eqn:Ev; simpl; [| done].
  assert (Hv : length v = W0).
  { eapply Forall_lookup_1 in H; [| exact Ev]. by destruct H. }
  rewrite reverse_lookup by lia.
  by replace (length v - S i)%nat with (W0 - 1 - i)%nat by lia.
Qed.

Lemma at5_is_Some {A : Type} (W0 W1 W2 : nat) (t : tensor5 A) (i j k : nat) :
  has_shape5 1 W0 W1 W2 1 t ->
  (i < W0)%nat -> (j < W1)%nat -> (k < W2)%nat ->
  is_Some (at5 t i j k).
Proof.
  intros [Hb H] Hi Hj Hk. unfold at5.
  destruct (lookup_lt_is_Some_2 t 0%nat) as [v Ev]; [lia |]. rewrite Ev. simpl.
  eapply Forall_lookup_1 in H as [H0 H]; [| exact Ev].
  destruct (lookup_lt_is_Some_2 v i) as [p Ep]; [lia |]. rewrite Ep. simpl.
  eapply Forall_lookup_1 in H as [H1 H]; [| exact Ep].
  destruct (lookup_lt_is_Some_2 p j) as [r Er]; [lia |]. rewrite Er. simpl.
  eapply Forall_lookup_1 in H as [H2 H]; [| exact Er].
  destruct (lookup_lt_is_Some_2 r k) as [ch Ech]; [lia |]. rewrite Ech. simpl.
  eapply Forall_lookup_1 in H; [| exact Ech].
  apply lookup_lt_is_Some_2. lia.
Qed.

Lemma half_sum (a b : Q) :
  Num.add (Num.mul (1 # 2) a) (Num.mul (1 # 2) b) = Qred ((a + b) / 2).
Proof.
  unfold Num.add, Num.mul. apply Qred_complete.
  rewrite !Qred_correct. field.
Qed.

(** C2. Test-time flipping (lines 148-153).  With [--disable_flipping]
    the network is run once, on [S], and its output is the prediction.
    Without it the prediction is
    [0.5 * predict(S) + 0.5 * flip(predict(flip(S)))], both flips along
    axis 1: entry [(i, j, k)] is the mean of entry [(i, j, k)] of the
    output for [S] and of entry [(W0 - 1 - i, j, k)] of the output for the
    flipped [S], whose entry [(i, j, k)] is entry [(W0 - 1 - i, j, k)] of
    [S]. *)
Theorem flipping_augmentation `{Ext : Externals} (args : arguments)
    (S : tensor5 Q) (W0 W1 W2 : nat) :
  let predict := unet_predict (weights_path args) in
  let out := predict_with_flipping predict (disable_flipping args) S in
  (forall im, network_output args im =
     predict_with_flipping predict (disable_flipping args) (pad_volume 0 im)) /\
  (disable_flipping args = true -> out = predict S) /\
  (disable_flipping args = false ->
     out = map5_2 Num.add
             (map5 (Num.mul (1 # 2)) (predict S))
             (map5 (Num.mul (1 # 2))
                (np_flip_axis1 (predict (np_flip_axis1 S)))) /\
     (has_shape5 1 W0 W1 W2 1 S ->
      has_shape5 1 W0 W1 W2 1 (predict S) ->
      has_shape5 1 W0 W1 W2 1 (predict (np_flip_axis1 S)) ->
      forall i j k, (i < W0)%nat -> (j < W1)%nat -> (k < W2)%nat ->
        at5 (np_flip_axis1 S) i j k = at5 S (W0 - 1 - i) j k /\
        exists a b,
          at5 (predict S) i j k = Some a /\
          at5 (predict (np_flip_axis1 S)) (W0 - 1 - i) j k = Some b /\
          at5 out i j k = Some (Num.add (Num.mul (1 # 2) a) (Num.mul (1 # 2) b)) /\
          at5 out i j k = Some (Qred ((a + b) / 2)))).
Proof.
  intros predict out. subst out. split; [done |]. split.
  - by intros ->.
  - intros ->. simpl. split; [done |].
    intros HS HP HPf i j k Hi Hj Hk. split; [by eapply at5_flip |].
    destruct (at5_is_Some W0 W1 W2 _ i j k HP Hi Hj Hk) as [a Ha].
    assert (Hi' : (W0 - 1 - i < W0)%nat) by lia.
    destruct (at5_is_Some W0 W1 W2 _ _ j k HPf Hi' Hj Hk) as [b Hb].
    exists a, b. split; [done |]. split; [done |].
    assert (E : at5 (map5_2 Num.add (map5 (Num.mul (1 # 2)) (predict S))
                  (map5 (Num.mul (1 # 2))
                     (np_flip_axis1 (predict (np_flip_axis1 S))))) i j k
                = Some (Num.add (Num.mul (1 # 2) a) (Num.mul (1 # 2) b))).
    { rewrite at5_map5_2, !at5_map5.
      rewrite (at5_flip 1 W0 W1 W2 1) by done. by rewrite Ha, Hb. }
    split; [exact E |]. by rewrite E, half_sum.
Qed.

Lemma flipping_augmentation_witness :
  predict_with_flipping (unet_predict (Externals := Toy.ext_blanking) "w.h5")
    true [[[[[1]]]; [[[3]]]]] = [[[[[0]]]; [[[3]]]]] /\
  at5 (predict_with_flipping
         (unet_predict (Externals := Toy.ext_blanking)
            (weights_path (Ext := Toy.ext_blanking)
               (parse_args (Toy.folder_run false false false))))
         false [[[[[1]]]; [[[3]]]]]) 0 0 0 = Some (1 # 2) /\
  at5 (predict_with_flipping
         (unet_predict (Externals := Toy.ext_blanking)
            (weights_path (Ext := Toy.ext_blanking)
               (parse_args (Toy.folder_run false false false))))
         false [[[[[1]]]; [[[3]]]]]) 1 0 0 = Some (3 # 2).
Proof.
  pose proof (flipping_augmentation (Ext := Toy.ext_blanking)
                (parse_args (Toy.single_run "/in/a.nii.gz"))
                [[[[[1]]]; [[[3]]]]] 2 1 1) as (_ & Hoff & _).
  pose proof (flipping_augmentation (Ext := Toy.ext_blanking)
                (parse_args (Toy.folder_run false false false))
                [[[[[1]]]; [[[3]]]]] 2 1 1) as (_ & _ & Hon).
  split; [exact (Hoff eq_refl) |].
  destruct (Hon eq_refl) as [_ Hentry].
  assert (Hs : forall x y : Q,
             has_shape5 1 2 1 1 1 ([[[[[x]]]; [[[y]]]]] : tensor5 Q))
    by (intros; split; [reflexivity | repeat constructor]).
  specialize (Hentry (Hs 1 3) (Hs 0 3) (Hs 0 1)).
  split.
  - destruct (Hentry 0%nat 0%nat 0%nat ltac:(lia) ltac:(lia) ltac:(lia))
      as (_ & a & b & Ha & Hb & _ & Hout).
    etransitivity; [exact Hout |].
    vm_compute in Ha, Hb. injection Ha as <-. injection Hb as <-.
    reflexivity.
  - destruct (Hentry 1%nat 0%nat 0%nat ltac:(lia) ltac:(lia) ltac:(lia))
      as (_ & a & b & Ha & Hb & _ & Hout).
    etransitivity; [exact Hout |].
    vm_compute in Ha, Hb. injection Ha as <-. injection Hb as <-.
    reflexivity.
Defined.

(** ** Input dispatch *)

Lemma is_directory_case_negb (b : string) :
  is_directory_case b = negb (has_image_extension b).
Proof.
  unfold is_directory_case, has_image_extension.
  by destruct (Str.contains ".nii.gz" b), (Str.contains ".nii" b),
     (Str.contains ".mgz" b), (Str.contains ".npz" b).
Qed.

(** C5. Errors of the input dispatch (lines 101-114).  The dispatch raises
    the [Exception] for an unsupported extension exactly when [path_images]
    is an existing file whose basename contains none of [.nii.gz], [.nii],
    [.mgz], [.npz], and the [AssertionError] for a missing file exactly when
    the basename contains one of them and no file is at the path.  These are
    the only errors the dispatch raises itself; any other comes out of a
    library call.  In both cases nothing has been done but to start the
    dispatch, and whatever was to follow does not run: the error is the
    result of the script. *)
Theorem dispatch_errors `{Ext : Externals} (args : arguments) (w : world) :
  let p := os_path_abspath (path_images args) in
  let b := Str.basename p in
  ((discover args w).1 = inl (Exception (msg_extension p)) <->
     os_path_isfile p = true /\ has_image_extension b = false) /\
  ((discover args w).1 = inl (AssertionError (msg_missing p)) <->
     has_image_extension b = true /\ os_path_isfile p = false) /\
  (forall e, (discover args w).1 = inl e ->
     (e = Exception (msg_extension p) /\
      (discover args w).2 = with_event (EvDiscover p) w) \/
     (e = AssertionError (msg_missing p) /\
      (discover args w).2 = with_event (EvDiscover p) w) \/
     (exists call msg, e = LibraryError call msg)) /\
  (forall e w1 (k : list string * list string -> M unit),
     discover args w = (inl e, w1) -> bind (discover args) k w = (inl e, w1)).
Proof.
  intros p b. pose proof (is_directory_case_negb b) as Hdir.
  unfold discover, bind, emit, modify, call, ret, raise. simpl.
  fold p. fold b. rewrite Hdir.
  split; [| split; [| split]].
  - destruct (has_image_extension b), (os_path_isfile p); simpl;
      try (split; [intros [=] | intros [[=] [=]]]; done);
      try (split; [done | intros [? ?]; done]).
    destruct (list_images_in_folder p); simpl;
      [split; [intros [=] | intros [[=] _]] |].
    destruct (mkdir _); simpl; split; try (intros [=]); intros [[=] _].
  - destruct (has_image_extension b), (os_path_isfile p); simpl;
      try (split; [intros [=] | intros [[=] [=]]]; done);
      try (split; [done | intros [? ?]; done]).
    destruct (list_images_in_folder p); simpl;
      [split; [intros [=] | intros [[=] _]] |].
    destruct (mkdir _); simpl; split; try (intros [=]); intros [[=] _].
  - intros e.
    destruct (has_image_extension b), (os_path_isfile p); simpl;
      try (intros [= <-]; auto; fail); try done.
    destruct (list_images_in_folder p); simpl;
      [intros [= <-]; right; right; eauto |].
    destruct (mkdir _); simpl; [intros [= <-]; right; right; eauto | done].
  - intros e w1 k. 
    destruct (has_image_extension b), (os_path_isfile p); simpl;
      try (intros [= <- <-]; reflexivity); try done.
    destruct (list_images_in_folder p); simpl;
      [intros [= <- <-]; reflexivity |].
    destruct (mkdir _); simpl; [intros [= <- <-]; reflexivity | done].
Qed.

Lemma dispatch_errors_witness :
  (main (Ext := Toy.ext) (Toy.single_run "/in/notes.txt") Toy.world0).1
    = inl (Exception (msg_extension "/in/notes.txt")) /\
  (main (Ext := Toy.ext) (Toy.single_run "/in/c.nii") Toy.world0).1
    = inl (AssertionError (msg_missing "/in/c.nii")) /\
  (discover (Ext := Toy.ext) (parse_args (Toy.single_run "/in/c.nii"))
     Toy.world0).1 = inl (AssertionError (msg_missing "/in/c.nii")).
Proof.
  destruct (dispatch_errors (Ext := Toy.ext)
              (parse_args (Toy.single_run "/in/c.nii")) Toy.world0)
    as (_ & [_ Hmissing] & _).
  split; [vm_compute; reflexivity |].
  split; [vm_compute; reflexivity |].
  apply Hmissing. split; reflexivity.
Defined.

(** The two cases above are not the only ones in which the dispatch ends
    with an error: a path that is no file and has none of the extensions is
    taken for a folder, and the error is that of [list_images_in_folder]. *)
Lemma dispatch_errors_counterexample :
  let p := "/nope"%string in
  (main (Ext := Toy.ext) (Toy.single_run p) Toy.world0).1 =
    inl (LibraryError "list_images_in_folder" "Folder does not exist: /nope") /\
  ~ (os_path_isfile (Externals := Toy.ext) p = true /\
     has_image_extension (Str.basename p) = false) /\
  ~ (has_image_extension (Str.basename p) = true /\
     os_path_isfile (Externals := Toy.ext) p = false).
Proof.
  cbv zeta. split; [vm_compute; reflexivity |].
  split; intros [H1 H2]; vm_compute in H1; discriminate.
Qed.

(** ** Output paths *)

(** C10. Output paths in the directory case (lines 104-110).  The
    replacements run over the joined path, not over the file name: when the
    path of the predictions folder itself contains [.nii], the script makes
    the predictions folder and then saves every prediction under a different
    folder; and a file name in which an extension occurs twice gets the
    suffix twice. *)
Theorem prediction_path_leaves_folder :
  let out := "/data/study.nii.d/out"%string in
  let w' := (main (Ext := Toy.ext) (Toy.folder_run_to out) Toy.world0).2 in
  prediction_path out "/in/a.nii.gz" =
    "/data/study_SynthSR.nii.d/out/a_SynthSR.nii.gz"%string /\
  directories w' = [out] /\
  map fst (saved w') =
    ["/data/study_SynthSR.nii.d/out/a_SynthSR.nii.gz"%string;
     "/data/study_SynthSR.nii.d/out/b_SynthSR.mgz"%string] /\
  forallb (Str.startswith (out ++ "/")%string) (map fst (saved w')) = false /\
  prediction_path "/out" "/in/a.nii.bak.nii.gz" =
    "/out/a_SynthSR.nii.bak_SynthSR.nii.gz"%string.
Proof. vm_compute. repeat split. Qed.

(** * Further properties of the script *)

(** ** Strings *)

Section Paths.
Local Open Scope string_scope.

Lemma append_cons (x : Ascii.ascii) (a b : string) :
  String x a ++ b = String x (a ++ b).
Proof. reflexivity. Qed.

Lemma append_nil_l (b : string) : "" ++ b = b.
Proof. reflexivity. Qed.

Lemma append_assoc (a b c : string) : (a ++ b) ++ c = a ++ (b ++ c).
Proof.
  induction a as [|x a IH]; [done |]. rewrite !append_cons. by f_equal.
Qed.

Lemma append_nil_r (a : string) : a ++ "" = a.
Proof.
  induction a as [|x a IH]; [done |]. rewrite append_cons. by f_equal.
Qed.

Lemma prefix_app_true (p a t : string) :
  String.prefix p a = true -> String.prefix p (a ++ t) = true.
Proof.
  revert a. induction p as [|x p IH]; intros a;
    [intros _; by destruct (a ++ t) |].
  destruct a as [|y a]; [done |]. rewrite append_cons. simpl.
  destruct (Ascii.ascii_dec x y); [apply IH | done].
Qed.

Lemma prefix_length (p a : string) :
  String.prefix p a = true -> (String.length p <= String.length a)%nat.
Proof.
  revert a. induction p as [|x p IH]; intros a; simpl; [lia |].
  destruct a as [|y a]; simpl; [done |].
  destruct (Ascii.ascii_dec x y); [| done]. intros H. apply IH in H. lia.
Qed.

(** An occurrence of [q] cannot run into a text that starts with a
    character [q] does not have. *)
Lemma prefix_stops_at (q a e : string) (c : Ascii.ascii) :
  Str.contains (String c "") q = false ->
  String.prefix q (a ++ String c e) = true -> String.prefix q a = true.
Proof.
  revert a. induction q as [|x q IH]; intros a Hc; [by destruct a |].
  simpl in Hc. apply orb_false_iff in Hc as [Hx Hq].
  destruct a as [|y a]; rewrite ?append_nil_l, ?append_cons; simpl.
  - destruct (Ascii.ascii_dec x c) as [-> |]; [| done].
    destruct (Ascii.ascii_dec c c); [by destruct q | done].
  - destruct (Ascii.ascii_dec x y); [by apply IH | done].
Qed.

Lemma prefix_no_straddle (x c : Ascii.ascii) (q a e : string) :
  Str.contains (String c "") q = false -> a <> "" ->
  String.prefix (String x q) (a ++ String c e) = String.prefix (String x q) a.
Proof.
  intros Hc Ha. destruct a as [|y a]; [done |]. rewrite append_cons. simpl.
  destruct (Ascii.ascii_dec x y); [| done].
  destruct (String.prefix q a) eqn:E.
  - by apply prefix_app_true.
  - apply not_true_iff_false. intros H. apply (prefix_stops_at q a e c Hc) in H.
    congruence.
Qed.

(** Replacement is local: where no occurrence of the pattern can run across
    the seam, the replacement of a concatenation is the concatenation of the
    replacements. *)
Lemma replace_from_app (x c : Ascii.ascii) (q new a e : string) (k : nat) :
  Str.contains (String c "") q = false ->
  (k <= String.length a)%nat ->
  Str.replace_from (String x q) new k (a ++ String c e) =
  Str.replace_from (String x q) new k a ++
  Str.replace (String x q) new (String c e).
Proof.
  intros Hc. revert k. induction a as [|y a IH]; intros k Hk.
  - simpl in Hk. by replace k with 0%nat by lia.
  - destruct k as [|k].
    + rewrite append_cons. cbn [Str.replace_from]. rewrite <- append_cons.
      rewrite (prefix_no_straddle x c q (String y a) e Hc) by done.
      destruct (String.prefix (String x q) (String y a)) eqn:E.
      * apply prefix_length in E. simpl in E.
        rewrite IH by (simpl; lia). by rewrite append_assoc.
      * rewrite append_cons. f_equal. apply IH. lia.
    + rewrite append_cons. cbn [Str.replace_from]. apply IH.
      simpl in Hk. lia.
Qed.

Lemma replace_app (x c : Ascii.ascii) (q new a e : string) :
  Str.contains (String c "") q = false ->
  Str.replace (String x q) new (a ++ String c e) =
  Str.replace (String x q) new a ++ Str.replace (String x q) new (String c e).
Proof. intros Hc. apply replace_from_app; [done | lia]. Qed.

(** A text without the pattern is left as it is. *)
Lemma replace_absent (x : Ascii.ascii) (q new a : string) :
  Str.contains (String x q) a = false ->
  Str.replace (String x q) new a = a.
Proof.
  unfold Str.replace. induction a as [|y a IH]; [done |].
  intros H. cbn [Str.contains] in H. apply orb_false_iff in H as [Hp Hc].
  cbn [Str.replace_from]. rewrite Hp. f_equal. by apply IH.
Qed.

(** ** Output paths, continued *)

Lemma join_app_extension (pp stem e : string) :
  Str.join pp (stem ++ String "."%char e) =
  Str.join pp stem ++ String "."%char e.
Proof.
  unfold Str.join, Str.startswith. destruct stem as [|y stem].
  - rewrite append_nil_l.
    assert (String.prefix "/" (String "."%char e) = false) as ->
      by reflexivity.
    assert (String.prefix "/" "" = false) as -> by reflexivity.
    destruct (String.eqb pp "" || Str.endswith "/" pp).
    + by rewrite append_nil_r.
    + by rewrite !append_assoc.
  - rewrite append_cons. cbn [String.prefix].
    destruct (Ascii.ascii_dec "/"%char y).
    + assert (String.prefix "" (stem ++ String "."%char e) = true) as ->
        by (by destruct (stem ++ String "."%char e)).
      assert (String.prefix "" stem = true) as -> by (by destruct stem).
      by rewrite append_cons.
    + destruct (String.eqb pp "" || Str.endswith "/" pp);
        by rewrite ?append_assoc, ?append_cons.
Qed.

(** The three replacements of lines 108-110, on a text that ends with one
    of the four extensions: whatever they do to the front of the text, they
    insert [_SynthSR] once, right before the extension. *)
Lemma replacements_at_extension (front ext : string) :
  In ext [".nii"; ".nii.gz"; ".mgz"; ".npz"] ->
  Str.replace ".npz" "_SynthSR.npz"
    (Str.replace ".mgz" "_SynthSR.mgz"
       (Str.replace ".nii" "_SynthSR.nii" (front ++ ext))) =
  Str.replace ".npz" "_SynthSR.npz"
    (Str.replace ".mgz" "_SynthSR.mgz"
       (Str.replace ".nii" "_SynthSR.nii" front)) ++ "_SynthSR" ++ ext.
Proof.
  intros [<- | [<- | [<- | [<- | []]]]].
  - rewrite (replace_app "."%char "."%char "nii" _ front "nii") by reflexivity.
    change (Str.replace ".nii" "_SynthSR.nii" ".nii") with "_SynthSR.nii".
    rewrite (replace_app "."%char "_"%char "mgz" _ _ "SynthSR.nii") by reflexivity.
    change (Str.replace ".mgz" "_SynthSR.mgz" "_SynthSR.nii")
      with "_SynthSR.nii".
    by rewrite (replace_app "."%char "_"%char "npz" _ _ "SynthSR.nii") by reflexivity.
  - rewrite (replace_app "."%char "."%char "nii" _ front "nii.gz") by reflexivity.
    change (Str.replace ".nii" "_SynthSR.nii" ".nii.gz")
      with "_SynthSR.nii.gz".
    rewrite (replace_app "."%char "_"%char "mgz" _ _ "SynthSR.nii.gz") by reflexivity.
    change (Str.replace ".mgz" "_SynthSR.mgz" "_SynthSR.nii.gz")
      with "_SynthSR.nii.gz".
    by rewrite (replace_app "."%char "_"%char "npz" _ _ "SynthSR.nii.gz") by reflexivity.
  - rewrite (replace_app "."%char "."%char "nii" _ front "mgz") by reflexivity.
    change (Str.replace ".nii" "_SynthSR.nii" ".mgz") with ".mgz".
    rewrite (replace_app "."%char "."%char "mgz" _ _ "mgz") by reflexivity.
    change (Str.replace ".mgz" "_SynthSR.mgz" ".mgz") with "_SynthSR.mgz".
    by rewrite (replace_app "."%char "_"%char "npz" _ _ "SynthSR.mgz") by reflexivity.
  - rewrite (replace_app "."%char "."%char "nii" _ front "npz") by reflexivity.
    change (Str.replace ".nii" "_SynthSR.nii" ".npz") with ".npz".
    rewrite (replace_app "."%char "."%char "mgz" _ _ "npz") by reflexivity.
    change (Str.replace ".mgz" "_SynthSR.mgz" ".npz") with ".npz".
    by rewrite (replace_app "."%char "."%char "npz" _ _ "npz") by reflexivity.
Qed.

Lemma extension_starts_with_dot (ext : string) :
  In ext [".nii"; ".nii.gz"; ".mgz"; ".npz"] -> exists e, ext = String "."%char e.
Proof. intros [<- | [<- | [<- | [<- | []]]]]; by eexists. Qed.

(** X1. The path of a prediction always ends with [_SynthSR] followed by
    the extension of the image, whatever the predictions folder and the
    rest of the file name are: the file written has the format of the file
    read. *)
Theorem prediction_path_keeps_extension (pp image stem ext : string) :
  Str.basename image = stem ++ ext ->
  In ext [".nii"; ".nii.gz"; ".mgz"; ".npz"] ->
  exists front, prediction_path pp image = front ++ "_SynthSR" ++ ext.
Proof.
  intros Hb Hext.
  assert (E : Str.join pp (stem ++ ext) = Str.join pp stem ++ ext).
  { destruct (extension_starts_with_dot ext Hext) as [e ->].
    apply join_app_extension. }
  eexists. unfold prediction_path. rewrite Hb, E.
  by apply replacements_at_extension.
Qed.

Lemma prediction_path_keeps_extension_witness :
  exists front,
    prediction_path "/data/study.nii.d/out" "/in/a.nii.bak.nii.gz" =
    front ++ "_SynthSR" ++ ".nii.gz".
Proof.
  apply (prediction_path_keeps_extension _ _ "a.nii.bak" ".nii.gz").
  - reflexivity.
  - simpl. auto.
Defined.

(** X2. When none of [.nii], [.mgz], [.npz] occurs in the predictions
    folder joined with the file name less its extension, the prediction of
    [stem.ext] goes to [folder/stem_SynthSR.ext]. *)
Theorem prediction_path_plain (pp image stem ext : string) :
  Str.basename image = stem ++ ext ->
  In ext [".nii"; ".nii.gz"; ".mgz"; ".npz"] ->
  has_image_extension (Str.join pp stem) = false ->
  prediction_path pp image = Str.join pp stem ++ "_SynthSR" ++ ext.
Proof.
  intros Hb Hext Hplain.
  assert (E : Str.join pp (stem ++ ext) = Str.join pp stem ++ ext).
  { destruct (extension_starts_with_dot ext Hext) as [e ->].
    apply join_app_extension. }
  unfold prediction_path. rewrite Hb, E.
  rewrite replacements_at_extension by done.
  unfold has_image_extension in Hplain.
  apply orb_false_iff in Hplain as [Hplain Hnpz].
  apply orb_false_iff in Hplain as [Hplain Hmgz].
  apply orb_false_iff in Hplain as [_ Hnii].
  by rewrite (replace_absent _ _ _ _ Hnii), (replace_absent _ _ _ _ Hmgz),
    (replace_absent _ _ _ _ Hnpz).
Qed.

Lemma prediction_path_plain_witness :
  prediction_path "/data/out" "/in/sub-01_T1w.nii.gz" =
  "/data/out/sub-01_T1w_SynthSR.nii.gz".
Proof.
  apply (prediction_path_plain "/data/out" _ "sub-01_T1w" ".nii.gz").
  - reflexivity.
  - simpl. auto.
  - reflexivity.
Defined.

End Paths.

(** ** Normalisation, continued *)

(** What a normalisation that returns has computed. *)
Lemma normalize_inr (im0 im : vol3 Q) :
  normalize im0 = inr im ->
  exists m M,
    Num.np_min (flatten3 im0) = Some m /\
    Num.np_max (flatten3 (map3 (fun x => Num.sub x m) im0)) = Some M /\
    0 < M /\
    im = map3 (fun x => Num.div (Num.sub x m) M) im0.
Proof.
  unfold normalize, subtract_min. intros H.
  destruct (Num.np_min (flatten3 im0)) as [m|] eqn:Hm; simpl in H; [| done].
  destruct (Num.np_max _) as [M|] eqn:HM; [| done].
  destruct (Qeq_bool M 0) eqn:HM0; [done |]. injection H as <-.
  exists m, M. repeat split; try done.
  - destruct (np_max_spec _ _ HM) as [Hin _].
    destruct (subtract_min_spec im0 m Hm) as (Hnn & _).
    specialize (Hnn M Hin).
    assert (~ M == 0) by (rewrite <- Qeq_bool_iff; congruence). lra.
  - by rewrite map3_map3.
Qed.

Lemma Forall_flatten3_map3 {A B : Type} (P : B -> Prop) (f : A -> B)
    (v : vol3 A) :
  (forall x, In x (flatten3 v) -> P (f x)) -> Forall P (flatten3 (map3 f v)).
Proof.
  intros H. rewrite flatten3_map3. apply List.Forall_forall.
  intros y Hy. apply in_map_iff in Hy as [x [<- Hx]]. by apply H.
Qed.

(** On rationals, a normalisation that returns keeps the shape of the
    volume and puts every entry into [0, 1]. *)
Lemma normalize_shape_and_range (im0 im : vol3 Q) :
  normalize im0 = inr im ->
  (forall d0 d1 d2, has_shape3 d0 d1 d2 im0 -> has_shape3 d0 d1 d2 im) /\
  Forall (fun x => 0 <= x <= 1) (flatten3 im).
Proof.
  intros H. destruct (normalize_inr _ _ H) as (m & M & Hm & HM & HMpos & ->).
  split.
  - intros d0 d1 d2 Hs. by apply has_shape3_map3.
  - destruct (np_min_spec _ _ Hm) as [_ Hmle].
    destruct (np_max_spec _ _ HM) as [_ HMle].
    apply Forall_flatten3_map3. intros x Hx.
    assert (Hin : In (Num.sub x m) (flatten3 (map3 (fun x => Num.sub x m) im0))).
    { rewrite flatten3_map3. apply in_map_iff. by exists x. }
    specialize (HMle _ Hin). specialize (Hmle _ Hx).
    unfold Num.div. rewrite Qred_correct.
    assert (0 <= Num.sub x m) by (unfold Num.sub; rewrite Qred_correct; lra).
    split.
    + apply Qle_shift_div_l; [done | lra].
    + apply Qle_shift_div_r; [done | lra].
Qed.

Lemma normalize_min_max (im0 im : vol3 Q) :
  normalize im0 = inr im ->
  Num.np_min (flatten3 im) = Some 0 /\ Num.np_max (flatten3 im) = Some 1.
Proof.
  intros H. destruct (normalize_inr _ _ H) as (m & M & Hm & HM & HMpos & ->).
  destruct (np_min_spec _ _ Hm) as [Hmin Hmle].
  destruct (np_max_spec _ _ HM) as [HMin HMle].
  rewrite flatten3_map3 in HMin, HMle. rewrite flatten3_map3. split.
  - change 0 with (Qred 0). apply np_min_reduced.
    + apply Forall_reduced_map. intros. apply div_reduced.
    + exists (Num.div (Num.sub m m) M). split.
      * apply in_map_iff. by exists m.
      * unfold Num.div, Num.sub. rewrite !Qred_correct. field. lra.
    + intros q Hq. apply in_map_iff in Hq as [x [<- Hx]].
      unfold Num.div, Num.sub. rewrite !Qred_correct.
      specialize (Hmle _ Hx). apply Qle_shift_div_l; [done | lra].
  - change 1 with (Qred 1). apply np_max_reduced.
    + apply Forall_reduced_map. intros. apply div_reduced.
    + apply in_map_iff in HMin as [x [HxM Hx]].
      exists (Num.div (Num.sub x m) M). split.
      * apply in_map_iff. by exists x.
      * rewrite HxM. unfold Num.div. rewrite Qred_correct. field. lra.
    + intros q Hq. apply in_map_iff in Hq as [x [<- Hx]].
      assert (Hle : Num.sub x m <= M).
      { apply HMle. apply in_map_iff. by exists x. }
      unfold Num.div. rewrite Qred_correct.
      apply Qle_shift_div_r; [done | lra].
Qed.

(** On rationals, normalising a normalised volume changes nothing. *)
Lemma normalize_idempotent (im0 im : vol3 Q) :
  normalize im0 = inr im -> normalize im = inr im.
Proof.
  intros H. destruct (normalize_min_max _ _ H) as [Hmin Hmax].
  destruct (normalize_inr _ _ H) as (m & M & _ & _ & HMpos & E).
  assert (Hsub : map3 (fun x => Num.sub x 0) im = im).
  { rewrite E, map3_map3. apply map3_ext. intros x.
    unfold Num.sub, Num.div. apply Qred_complete. rewrite Qred_correct.
    ring. }
  assert (Hdiv : map3 (fun x => Num.div x 1) im = im).
  { rewrite E, map3_map3. apply map3_ext. intros x.
    unfold Num.div at 1. apply Qred_complete.
    unfold Num.div. rewrite Qred_correct. field. lra. }
  unfold normalize, subtract_min. rewrite Hmin. simpl.
  rewrite Hsub, Hmax. simpl. by rewrite Hdiv.
Qed.

(** ** CT clipping, continued *)

(** X6. Clipping a clipped volume changes nothing. *)
Theorem ct_clip_idempotent (im : vol3 Q) : ct_clip (ct_clip im) = ct_clip im.
Proof.
  unfold ct_clip, masked_assign. rewrite !map3_map3. apply map3_ext.
  intros x. destruct (Num.ltb x 0) eqn:Elt.
  - reflexivity.
  - destruct (Num.gtb x 80) eqn:Egt; [reflexivity |]. by rewrite Elt, Egt.
Qed.

(** On rationals, a volume with entries, all of them equal, has no
    normalised volume: the divisor is 0. *)
Lemma normalize_constant (im : vol3 Q) :
  flatten3 im <> [] ->
  (forall x y, In x (flatten3 im) -> In y (flatten3 im) -> x == y) ->
  normalize im = inl DivisionByZero.
Proof.
  intros Hne Hconst.
  destruct (np_min_is_Some (flatten3 im) Hne) as [m Hm].
  destruct (np_min_spec _ _ Hm) as [Hmin Hmle].
  destruct (subtract_min_spec im m Hm) as (Hnn & Hzero & Hform).
  set (im1 := map3 (fun x => Num.sub x m) im) in *.
  assert (HM : Num.np_max (flatten3 im1) = Some 0).
  { change 0 with (Qred 0). apply np_max_reduced.
    - unfold im1. rewrite flatten3_map3. apply Forall_reduced_map.
      intros. apply sub_reduced.
    - done.
    - intros q Hq. destruct (Hform q Hq) as [z [Hz ->]].
      specialize (Hconst z m Hz Hmin). lra. }
  unfold normalize, subtract_min. rewrite Hm. simpl. fold im1. by rewrite HM.
Qed.

(** ** Postprocessing, continued *)

Lemma Forall3_crop3 {A : Type} (P : A -> Prop) (a0 a1 a2 d0 d1 d2 : nat)
    (v : vol3 A) :
  Forall (Forall (Forall P)) v ->
  Forall (Forall (Forall P)) (crop3 a0 a1 a2 d0 d1 d2 v).
Proof.
  intros H. unfold crop3. apply List.Forall_map, Forall_slice.
  eapply Forall_impl; [exact H |]. intros p Hp. simpl.
  apply List.Forall_map, Forall_slice.
  eapply Forall_impl; [exact Hp |]. intros r Hr. by apply Forall_slice.
Qed.

Lemma Forall3_map3 {A B : Type} (P : B -> Prop) (f : A -> B) (v : vol3 A) :
  (forall x, P (f x)) -> Forall (Forall (Forall P)) (map3 f v).
Proof.
  intros H. unfold map3. apply List.Forall_map, Forall_true. intros p.
  apply List.Forall_map, Forall_true. intros r.
  apply List.Forall_map, Forall_true. intros x. apply H.
Qed.

(** ** Padding, continued *)

Lemma W_of_multiple (d : nat) : Nat.divide 32 d -> W_of d = d /\ off_of d = 0%nat.
Proof.
  intros Hd. destruct (padded_dim_nat d) as ([Hlo _] & _ & Hleast & _).
  fold (W_of d) in *. assert (HW : W_of d = d).
  { specialize (Hleast d Hd). lia. }
  split; [done |]. unfold off_of. rewrite HW, Nat.sub_diag. reflexivity.
Qed.

Lemma pad_axis_exact {A : Type} (z : A) (l : list A) :
  pad_axis 0 (length l) z l = l.
Proof.
  unfold pad_axis. simpl.
  replace (length l - 0 - length l)%nat with 0%nat by lia.
  apply app_nil_r.
Qed.

(** X9. A volume whose extents are already multiples of 32 is not padded:
    the network is run on the volume itself, with the batch and the channel
    axis added. *)
Theorem pad_volume_of_multiples {A : Type} (z : A) (d0 d1 d2 : nat)
    (im : vol3 A) :
  has_shape3 d0 d1 d2 im -> (0 < d0)%nat -> (0 < d1)%nat ->
  Nat.divide 32 d0 -> Nat.divide 32 d1 -> Nat.divide 32 d2 ->
  pad_volume z im = add_batch_and_channel im.
Proof.
  intros Hs Hd0 Hd1 H0 H1 H2.
  rewrite (pad_volume_placed_at z d0 d1 d2) by done.
  destruct (W_of_multiple d0 H0) as [-> ->].
  destruct (W_of_multiple d1 H1) as [-> ->].
  destruct (W_of_multiple d2 H2) as [-> ->].
  destruct Hs as [Hlen H]. unfold placed_at, add_batch_and_channel. f_equal.
  assert (E : map (fun p => pad_axis 0 d1 (replicate d2 [z])
                (map (fun r => pad_axis 0 d2 [z] (map (fun x => [x]) r)) p)) im
              = map (map (map (fun x => [x]))) im).
  { apply map_ext_Forall. eapply Forall_impl; [exact H |].
    intros p [Hp Hr]. simpl.
    assert (E' : map (fun r => pad_axis 0 d2 [z] (map (fun x => [x]) r)) p
                 = map (map (fun x => [x])) p).
    { apply map_ext_Forall. eapply Forall_impl; [exact Hr |].
      intros r Hlr. simpl in *. rewrite <- Hlr.
      rewrite <- (length_map (fun x => [x]) r) at 1. apply pad_axis_exact. }
    rewrite E'. rewrite <- Hp.
    rewrite <- (length_map (map (fun x => [x])) p) at 1. apply pad_axis_exact. }
  rewrite E. rewrite <- Hlen.
  rewrite <- (length_map (map (map (fun x => [x]))) im) at 1.
  apply pad_axis_exact.
Qed.

Lemma pad_volume_of_multiples_witness :
  pad_volume 0 (replicate 32 (replicate 32 (replicate 64 (1 # 3)))) =
  add_batch_and_channel (replicate 32 (replicate 32 (replicate 64 (1 # 3)))).
Proof.
  apply (pad_volume_of_multiples 0 32 32 64).
  - split; [reflexivity |].
    apply Forall_replicate. split; [reflexivity |].
    apply Forall_replicate. reflexivity.
  - lia.
  - lia.
  - by exists 1%nat.
  - by exists 1%nat.
  - by exists 2%nat.
Defined.

(** X10. The padding is centred and small: along every axis at most 15
    zeros go before the volume and at most 16 after it, and the number
    after is the number before or one more. *)
Theorem padding_is_centred (d : nat) :
  let before := off_of d in
  let after := (W_of d - off_of d - d)%nat in
  (before + d + after = W_of d)%nat /\
  (before <= 15)%nat /\ (after <= 16)%nat /\
  (after = before \/ after = S before).
Proof.
  intros before after. subst before after. unfold off_of.
  destruct (padded_dim_nat d) as ([Hlo Hhi] & _). fold (W_of d) in *.
  set (g := (W_of d - d)%nat). assert (Hg : (g <= 31)%nat) by (unfold g; lia).
  pose proof (Nat.div_mod_eq g 2) as Hdm.
  pose proof (Nat.mod_upper_bound g 2 ltac:(lia)) as Hmod.
  unfold g in *. lia.
Qed.

(** ** Flipping, continued *)

Lemma reverse_map {A B : Type} (g : A -> B) (l : list A) :
  reverse (map g l) = map g (reverse l).
Proof.
  induction l as [|x l IH]; [done |].
  simpl. rewrite !reverse_cons, map_app, IH. reflexivity.
Qed.

Lemma reverse_zip_with {A B C : Type} (f : A -> B -> C) (l : list A)
    (k : list B) :
  length l = length k ->
  reverse (zip_with f l k) = zip_with f (reverse l) (reverse k).
Proof.
  revert k. induction l as [|x l IH]; intros [|y k] Hlen; try done.
  simpl in Hlen. simpl. rewrite !reverse_cons, IH by lia.
  rewrite zip_with_app by (rewrite !length_reverse; lia). reflexivity.
Qed.

Lemma zip_with_comm {A B : Type} (f : A -> A -> B) (l k : list A) :
  (forall x y, f x y = f y x) -> zip_with f l k = zip_with f k l.
Proof.
  intros Hf. revert k. induction l as [|x l IH]; intros [|y k]; try done.
  simpl. by rewrite Hf, IH.
Qed.

Lemma add_comm (x y : Q) : Num.add x y = Num.add y x.
Proof. unfold Num.add. apply Qred_complete. ring. Qed.

Lemma map5_2_add_comm (s t : tensor5 Q) :
  map5_2 Num.add s t = map5_2 Num.add t s.
Proof.
  unfold map5_2. apply zip_with_comm. intros v v'.
  apply zip_with_comm. intros p p'. apply zip_with_comm. intros r r'.
  apply zip_with_comm. intros ch ch'. apply zip_with_comm. apply add_comm.
Qed.

Lemma flip_involutive {A : Type} (t : tensor5 A) :
  np_flip_axis1 (np_flip_axis1 t) = t.
Proof.
  unfold np_flip_axis1. rewrite map_map. rewrite <- (map_id t) at 2.
  apply map_ext. intros v. apply reverse_involutive.
Qed.

Lemma flip_map5 {A B : Type} (f : A -> B) (t : tensor5 A) :
  np_flip_axis1 (map5 f t) = map5 f (np_flip_axis1 t).
Proof.
  unfold np_flip_axis1, map5. rewrite !map_map. apply map_ext.
  intros v. apply reverse_map.
Qed.

Lemma flip_map5_2 {A : Type} (f : A -> A -> A) (s t : tensor5 A) :
  Forall2 (fun v v' => length v = length v') s t ->
  np_flip_axis1 (map5_2 f s t) =
  map5_2 f (np_flip_axis1 s) (np_flip_axis1 t).
Proof.
  unfold np_flip_axis1, map5_2.
  induction 1 as [|v v' s t Hlen _ IH]; [done |].
  simpl. rewrite IH. f_equal. by apply reverse_zip_with.
Qed.

Lemma same_axis1_length {A : Type} (b W0 W1 W2 c : nat) (s t : tensor5 A) :
  has_shape5 b W0 W1 W2 c s -> has_shape5 b W0 W1 W2 c t ->
  Forall2 (fun v v' => length v = length v') s t.
Proof.
  intros [Hs Hfs] [Ht Hft]. subst b. revert t Ht Hft.
  induction Hfs as [|v s [Hv _] _ IH]; intros [|v' t] Ht Hft; try done.
  apply Forall_cons in Hft as [[Hv' _] Hft]. constructor.
  - congruence.
  - apply IH; [simpl in Ht; lia | done].
Qed.

Lemma has_shape5_flip {A : Type} (b W0 W1 W2 c : nat) (t : tensor5 A) :
  has_shape5 b W0 W1 W2 c t -> has_shape5 b W0 W1 W2 c (np_flip_axis1 t).
Proof.
  intros [Hb H]. unfold np_flip_axis1. split; [by rewrite length_map |].
  apply List.Forall_map. eapply Forall_impl; [exact H |].
  intros v [Hv Hp]. simpl. split; [by rewrite length_reverse |].
  by apply Forall_reverse.
Qed.

Lemma has_shape5_map5 {A B : Type} (f : A -> B) (b W0 W1 W2 c : nat)
    (t : tensor5 A) :
  has_shape5 b W0 W1 W2 c t -> has_shape5 b W0 W1 W2 c (map5 f t).
Proof.
  intros [Hb H]. unfold map5. split; [by rewrite length_map |].
  apply List.Forall_map. eapply Forall_impl; [exact H |].
  intros v [Hv Hp]. simpl. split; [by rewrite length_map |].
  apply List.Forall_map. eapply Forall_impl; [exact Hp |].
  intros p [Hlp Hr]. simpl. split; [by rewrite length_map |].
  apply List.Forall_map. eapply Forall_impl; [exact Hr |].
  intros r [Hlr Hch]. simpl. split; [by rewrite length_map |].
  apply List.Forall_map. eapply Forall_impl; [exact Hch |].
  intros ch Hlc. simpl in *. by rewrite length_map.
Qed.

(** X11. With flipping enabled the prediction commutes with the flip,
    whatever the network does: the prediction for the flipped input is the
    flipped prediction for the input. *)
Theorem flipped_prediction_is_equivariant (predict : tensor5 Q -> tensor5 Q)
    (S : tensor5 Q) (b W0 W1 W2 c : nat) :
  has_shape5 b W0 W1 W2 c (predict S) ->
  has_shape5 b W0 W1 W2 c (predict (np_flip_axis1 S)) ->
  predict_with_flipping predict false (np_flip_axis1 S) =
  np_flip_axis1 (predict_with_flipping predict false S).
Proof.
  intros HP HPf. unfold predict_with_flipping.
  rewrite flip_involutive.
  rewrite (flip_map5_2 Num.add).
  - rewrite !flip_map5, flip_involutive. apply map5_2_add_comm.
  - apply (same_axis1_length b W0 W1 W2 c).
    + by apply has_shape5_map5.
    + by apply has_shape5_map5, has_shape5_flip.
Qed.

Lemma flipped_prediction_is_equivariant_witness :
  predict_with_flipping Toy.blank_first_plane false
    (np_flip_axis1 [[[[[1]]]; [[[3]]]]]) = [[[[[3 # 2]]]; [[[1 # 2]]]]] /\
  predict_with_flipping Toy.blank_first_plane false [[[[[1]]]; [[[3]]]]]
    = [[[[[1 # 2]]]; [[[3 # 2]]]]].
Proof.
  assert (Hs : forall x y : Q,
             has_shape5 1 2 1 1 1 ([[[[[x]]]; [[[y]]]]] : tensor5 Q))
    by (intros; split; [reflexivity | repeat constructor]).
  pose proof (flipped_prediction_is_equivariant Toy.blank_first_plane
                [[[[[1]]]; [[[3]]]]] 1 2 1 1 1 (Hs 0 3) (Hs 0 1)) as E.
  split; [| vm_compute; reflexivity].
  rewrite E. vm_compute. reflexivity.
Defined.

(** ** What a run leaves on disk *)

Section Effects.
Context `{Ext : Externals}.

Lemma normalize_error (im : vol3 Q) (e : error) :
  normalize im = inl e -> loop_error e.
Proof.
  unfold normalize. destruct (subtract_min im); [| by intros [= <-]].
  destruct (Num.np_max _); [| by intros [= <-]].
  destruct (Qeq_bool _ _); [by intros [= <-] | done].
Qed.

Lemma process_image_effects (args : arguments) (idx : nat) (pi pp : string)
    (w w' : world) (r : result unit) :
  process_image args idx (pi, pp) w = (r, w') ->
  directories w' = directories w /\
  (forall e, r = inl e -> loop_error e) /\
  map fst (saved w') =
    map fst (saved w) ++ (if r is inr _ then [pp] else []).
Proof.
  unfold process_image.
  unfold bind, emit, modify, call, lift, ret, raise. simpl.
  intros H. repeat run_step; injection H as <- <-; simpl;
    rewrite ?app_nil_r, ?map_app; (split; [done |]);
    (split; [| done]); intros e' [= <-]; try done.
  all: by eapply normalize_error.
Qed.

Lemma for_each_effects (args : arguments) (files : list (string * string))
    (idx : nat) (w w' : world) (r : result unit) :
  for_each (process_image args) idx files w = (r, w') ->
  directories w' = directories w /\
  exists n, (n <= length files)%nat /\
    map fst (saved w') = map fst (saved w) ++ map snd (take n files) /\
    (forall u, r = inr u -> n = length files) /\
    (forall e, r = inl e -> (n < length files)%nat /\ loop_error e).
Proof.
  revert idx w. induction files as [|[pi pp] files IH]; intros idx w H.
  - simpl in H. unfold ret in H. injection H as <- <-. split; [done |].
    exists 0%nat. simpl. rewrite app_nil_r. by repeat split.
  - rewrite for_each_cons in H.
    destruct (process_image args idx (pi, pp) w) as [r1 w1] eqn:E1.
    destruct (process_image_effects _ _ _ _ _ _ _ E1) as (Hd1 & He1 & Hs1).
    destruct r1 as [e|[]].
    + injection H as <- <-. split; [done |]. exists 0%nat. simpl in *.
      split; [lia |]. split; [done |]. split; [done |].
      intros e' [= <-]. split; [lia | by apply He1].
    + destruct (IH _ _ H) as (Hd2 & n & Hn & Hs2 & Hok & Herr).
      split; [congruence |]. exists (S n). simpl.
      split; [lia |]. split.
      * rewrite Hs2, Hs1, <- app_assoc. reflexivity.
      * split.
        -- intros u Hu. f_equal. by eapply Hok.
        -- intros e He. destruct (Herr e He). split; [lia | done].
Qed.

(** The dispatch writes nothing, makes the predictions folder only when it
    returns or when [mkdir] itself has run, and returns as many prediction
    paths as images. *)
Lemma discover_effects (args : arguments) (w w1 : world)
    (r : result (list string * list string)) :
  discover args w = (r, w1) ->
  saved w1 = saved w /\
  (forall e, r = inl e -> directories w1 = directories w) /\
  (forall images preds, r = inr (images, preds) ->
     length images = length preds /\
     (is_directory_case
        (Str.basename (os_path_abspath (path_images args))) = true ->
      list_images_in_folder (os_path_abspath (path_images args))
        = inr images /\
      preds =
        map (prediction_path (os_path_abspath (path_predictions args)))
            images) /\
     (is_directory_case
        (Str.basename (os_path_abspath (path_images args))) = false ->
      images = [os_path_abspath (path_images args)] /\
      preds = [os_path_abspath (path_predictions args)])).
Proof.
  unfold discover. unfold bind, emit, modify, call, lift, ret, raise. simpl.
  intros H. repeat run_step; injection H as <- <-; simpl;
    (split; [done |]); (split; [by intros e [= <-] |]);
    intros images preds [= <- <-]; rewrite ?length_map; by repeat split.
Qed.

(** The script up to the dispatch: it has written nothing and made no
    folder. *)
Lemma main_decompose (cl : command_line) (w w' : world) (r : result unit) :
  main cl w = (r, w') ->
  let args := parse_args cl in
  (exists msg, r = inl (LibraryError "load_weights" msg) /\
     saved w' = saved w /\ directories w' = directories w) \/
  (exists w0 w1 rd,
     saved w0 = saved w /\ directories w0 = directories w /\
     discover args w0 = (rd, w1) /\
     match rd with
     | inl e => r = inl e /\ w' = w1
     | inr (images, preds) =>
         for_each (process_image args) 0 (zip images preds) w1 = (r, w')
     end).
Proof.
  unfold main. intros H. set (args := parse_args cl) in *. revert H.
  unfold bind at 1 2 3 4 5 6 7 8 9 10 11 12.
  unfold emit, modify, call, ret, raise.
  intros H. cbv beta iota zeta in H.
  destruct (cpu args); cbv beta iota in H;
    (destruct (load_weights (weights_path args)) as [msg|[]];
     cbv beta iota in H;
     [ left; injection H as <- <-; by exists msg
     | right; unfold bind in H;
       match type of H with
       | context [discover args ?w0] =>
           destruct (discover args w0) as [rd w1] eqn:Ed;
           exists w0, w1, rd; split; [done |]; split; [done |];
           split; [done |];
           destruct rd as [e | [images preds]];
           [ by injection H as <- <- | done ]
       end ]).
Qed.

(** X12. A run leaves one prediction per discovered image, in the order
    of discovery, under the paths the dispatch computed: all of them when
    the script returns, and the predictions of the images before the
    failing one when it stops in the loop. *)
Theorem main_saves_in_order (cl : command_line) (w w' : world)
    (r : result unit) :
  main cl w = (r, w') ->
  exists n, (n <= length (files_to_process (parse_args cl)))%nat /\
    map fst (saved w') =
      map fst (saved w) ++ map snd (take n (files_to_process (parse_args cl))) /\
    (forall u, r = inr u -> n = length (files_to_process (parse_args cl))).
Proof.
  intros H. destruct (main_decompose cl w w' r H)
    as [(msg & -> & Hs & _) | (w0 & w1 & rd & Hs0 & _ & Ed & Hrd)].
  - exists 0%nat. rewrite Hs. simpl. rewrite app_nil_r.
    split; [lia |]. by split.
  - destruct (discover_effects _ _ _ _ Ed) as (Hs1 & _).
    destruct rd as [e | [images preds]].
    + destruct Hrd as [-> ->]. exists 0%nat. simpl. rewrite app_nil_r.
      split; [lia |]. split; [congruence | done].
    + destruct (discover_run _ _ _ _ Ed) as (_ & t & _ & _ & Hfiles).
      destruct (Hfiles _ _ eq_refl) as [_ Hzip]. rewrite Hzip in Hrd.
      destruct (for_each_effects _ _ _ _ _ _ Hrd) as (_ & n & Hn & Hsv & Hok & _).
      exists n. split; [done |]. split; [| done].
      rewrite Hsv. congruence.
Qed.

(** A run that returns has found its images and saved a prediction for
    each. *)
Lemma main_returns (cl : command_line) (w w' : world) (u : unit) :
  main cl w = (inr u, w') ->
  exists images preds w0 w1,
    discover (parse_args cl) w0 = (inr (images, preds), w1) /\
    zip images preds = files_to_process (parse_args cl) /\
    map fst (saved w') = map fst (saved w) ++ map snd (zip images preds).
Proof.
  intros H. destruct (main_decompose cl w w' _ H)
    as [(msg & [=] & _) | (w0 & w1 & rd & Hs0 & _ & Ed & Hrd)].
  destruct (discover_effects _ _ _ _ Ed) as (Hs1 & _).
  destruct rd as [e | [images preds]]; [by destruct Hrd |].
  destruct (discover_run _ _ _ _ Ed) as (_ & t & _ & _ & Hfiles).
  destruct (Hfiles _ _ eq_refl) as [_ Hzip].
  destruct (for_each_effects _ _ _ _ _ _ Hrd) as (_ & n & _ & Hsv & Hok & _).
  rewrite (Hok u eq_refl), firstn_all in Hsv.
  exists images, preds, w0, w1. split; [done |]. split; [done |].
  rewrite Hsv. congruence.
Qed.

(** X13. When the script returns, every image found has been processed.
    In the directory case the predictions saved are those of the images
    [list_images_in_folder] returned, one each and in that order, under the
    paths of lines 108-110; in the single-file case the one prediction is
    saved under [path_predictions], made absolute and otherwise as given. *)
Theorem main_processes_every_image (cl : command_line) (w w' : world)
    (u : unit) :
  main cl w = (inr u, w') ->
  let args := parse_args cl in
  let p := os_path_abspath (path_images args) in
  let pp := os_path_abspath (path_predictions args) in
  (is_directory_case (Str.basename p) = true ->
     exists images,
       list_images_in_folder p = inr images /\
       map fst (saved w') =
         map fst (saved w) ++ map (prediction_path pp) images) /\
  (is_directory_case (Str.basename p) = false ->
     map fst (saved w') = map fst (saved w) ++ [pp]).
Proof.
  intros H args p pp.
  destruct (main_returns cl w w' u H)
    as (images & preds & w0 & w1 & Ed & _ & Hsv).
  destruct (discover_effects _ _ _ _ Ed) as (_ & _ & Hfound).
  destruct (Hfound _ _ eq_refl) as (Hlen & Hdir & Hfile).
  rewrite snd_zip in Hsv by lia. split.
  - intros Hd. destruct (Hdir Hd) as [Hl ->]. by exists images.
  - intros Hd. by destruct (Hfile Hd) as [_ ->].
Qed.

(** X14. When the dispatch raises, for an unsupported extension or for a
    missing file, the script has made no folder and written no file. *)
Theorem dispatch_error_leaves_nothing (cl : command_line) (w w' : world)
    (r : result unit) (msg : string) :
  main cl w = (r, w') ->
  r = inl (Exception msg) \/ r = inl (AssertionError msg) ->
  directories w' = directories w /\ saved w' = saved w.
Proof.
  intros H Hr. destruct (main_decompose cl w w' r H)
    as [(m & -> & Hs & Hd) | (w0 & w1 & rd & Hs0 & Hd0 & Ed & Hrd)].
  - by destruct Hr.
  - destruct (discover_effects _ _ _ _ Ed) as (Hs1 & Hd1 & _).
    destruct rd as [e | [images preds]].
    + destruct Hrd as [-> ->]. split; [| congruence].
      rewrite (Hd1 e eq_refl). done.
    + destruct (for_each_effects _ _ _ _ _ _ Hrd) as (_ & n & _ & _ & _ & Herr).
      destruct Hr as [-> | ->];
        by destruct (Herr _ eq_refl) as [_ []].
Qed.

End Effects.

Lemma main_saves_in_order_witness :
  map fst (saved (main (Ext := Toy.ext) (Toy.folder_run false false true)
                    Toy.world0).2)
  = ["/out/a_SynthSR.nii.gz"; "/out/b_SynthSR.mgz"]%string.
Proof.
  destruct (main_saves_in_order (Ext := Toy.ext)
              (Toy.folder_run false false true) Toy.world0 _ _
              (surjective_pairing _)) as (n & _ & Hsv & Hok).
  rewrite Hsv, (Hok tt) by (vm_compute; reflexivity).
  vm_compute. reflexivity.
Defined.

Lemma main_processes_every_image_witness :
  map fst (saved (main (Ext := Toy.ext) (Toy.single_run "/in/a.nii.gz")
                    Toy.world0).2) = ["/out/p.nii"%string] /\
  map fst (saved (main (Ext := Toy.ext) (Toy.folder_run true true false)
                    Toy.world0).2)
  = map (prediction_path "/out") ["/in/a.nii.gz"; "/in/b.mgz"]%string.
Proof.
  split.
  - assert (H : main (Ext := Toy.ext) (Toy.single_run "/in/a.nii.gz")
                  Toy.world0
                = (inr tt, (main (Ext := Toy.ext)
                              (Toy.single_run "/in/a.nii.gz") Toy.world0).2))
      by (vm_compute; reflexivity).
    destruct (main_processes_every_image (Ext := Toy.ext) _ _ _ _ H)
      as [_ Hfile].
    apply Hfile. reflexivity.
  - assert (H : main (Ext := Toy.ext) (Toy.folder_run true true false)
                  Toy.world0
                = (inr tt, (main (Ext := Toy.ext)
                              (Toy.folder_run true true false) Toy.world0).2))
      by (vm_compute; reflexivity).
    destruct (main_processes_every_image (Ext := Toy.ext) _ _ _ _ H)
      as [Hdir _].
    destruct (Hdir eq_refl) as (images & Hl & Hsv).
    injection Hl as <-. exact Hsv.
Defined.

Lemma dispatch_error_leaves_nothing_witness :
  directories (main (Ext := Toy.ext) (Toy.single_run "/in/c.nii")
                 Toy.world0).2 = [] /\
  saved (main (Ext := Toy.ext) (Toy.single_run "/in/c.nii") Toy.world0).2 = [].
Proof.
  apply (dispatch_error_leaves_nothing (Ext := Toy.ext)
           (Toy.single_run "/in/c.nii") Toy.world0 _
           (main (Ext := Toy.ext) (Toy.single_run "/in/c.nii") Toy.world0).1
           (msg_missing "/in/c.nii") (surjective_pairing _)).
  right. vm_compute. reflexivity.
Defined.

(** * Volumes of floats

    The clipping, the normalisation and the postprocessing on volumes whose
    entries can be infinite or nan.  On volumes of numbers they are what
    they are on rationals, apart from the division by a zero divisor, which
    returns nan where the rational model stops. *)

Lemma map3_ext_in {A B : Type} (f g : A -> B) (v : vol3 A) :
  (forall x, In x (flatten3 v) -> f x = g x) -> map3 f v = map3 g v.
Proof.
  intros H. unfold map3. apply map_ext_in. intros p Hp.
  apply map_ext_in. intros r Hr. apply map_ext_in. intros x Hx.
  apply H. unfold flatten3. apply in_concat. exists r. split; [| done].
  apply in_concat. by exists p.
Qed.

Lemma of_exact_in_range (fmax q : Q) :
  0 <= q -> q <= fmax -> Fp.of_exact fmax q = Fp.Fin (Qred q).
Proof.
  intros H0 H1. unfold Fp.of_exact.
  assert (Qle_bool (Qabs q) fmax = true) as ->; [| done].
  apply Qle_bool_iff. by rewrite Qabs_pos.
Qed.

Lemma fp_sub_finite (fmax a b : Q) :
  0 <= a - b -> a - b <= fmax ->
  Fp.sub fmax (Fp.Fin a) (Fp.Fin b) = Fp.Fin (Num.sub a b).
Proof. intros. by apply of_exact_in_range. Qed.

Lemma fp_div_finite (fmax a b : Q) :
  ~ b == 0 -> 0 <= a / b -> a / b <= fmax ->
  Fp.div fmax (Fp.Fin a) (Fp.Fin b) = Fp.Fin (Num.div a b).
Proof.
  intros Hb H0 H1. unfold Fp.div.
  assert (Qeq_bool b 0 = false) as ->.
  { apply not_true_iff_false. by rewrite Qeq_bool_iff. }
  by apply of_exact_in_range.
Qed.

Lemma fp_div_zero_by_zero (fmax a b : Q) :
  a == 0 -> b == 0 -> Fp.div fmax (Fp.Fin a) (Fp.Fin b) = Fp.NaN.
Proof.
  intros Ha Hb. unfold Fp.div.
  apply Qeq_bool_iff in Ha. apply Qeq_bool_iff in Hb. by rewrite Ha, Hb.
Qed.

Lemma fold_min2_Fin (r : list Q) (x : Q) :
  fold_left Fp.min2 (map Fp.Fin r) (Fp.Fin x) =
  Fp.Fin (fold_left Num.min2 r x).
Proof.
  revert x. induction r as [|a r IH]; intros x; simpl; [done |].
  rewrite <- IH. f_equal.
  unfold Fp.min2, Num.min2, Fp.ltb. by destruct (Qle_bool x a).
Qed.

Lemma fold_max2_Fin (r : list Q) (x : Q) :
  fold_left Fp.max2 (map Fp.Fin r) (Fp.Fin x) =
  Fp.Fin (fold_left Num.max2 r x).
Proof.
  revert x. induction r as [|a r IH]; intros x; simpl; [done |].
  rewrite <- IH. f_equal.
  unfold Fp.max2, Num.max2, Fp.ltb. by destruct (Qle_bool x a).
Qed.

Lemma np_min_Fin (l : list Q) :
  Fp.np_min (map Fp.Fin l) = Fp.Fin <$> Num.np_min l.
Proof. destruct l as [|x r]; simpl; [done |]. by rewrite fold_min2_Fin. Qed.

Lemma np_max_Fin (l : list Q) :
  Fp.np_max (map Fp.Fin l) = Fp.Fin <$> Num.np_max l.
Proof. destruct l as [|x r]; simpl; [done |]. by rewrite fold_max2_Fin. Qed.

(** Line 138 on a volume of numbers whose range does not overflow. *)
Lemma subtract_min_fp_finite (fmax : Q) (imq : vol3 Q) :
  (forall x y, In x (flatten3 imq) -> In y (flatten3 imq) -> x - y <= fmax) ->
  subtract_min_fp fmax (map3 Fp.Fin imq) = map3 Fp.Fin <$> subtract_min imq.
Proof.
  intros Hover. unfold subtract_min_fp, subtract_min.
  rewrite flatten3_map3, np_min_Fin.
  destruct (Num.np_min (flatten3 imq)) as [m|] eqn:Hm; simpl; [| done].
  destruct (np_min_spec _ _ Hm) as [Hmin Hmle]. f_equal.
  rewrite !map3_map3. apply map3_ext_in. intros x Hx.
  apply fp_sub_finite; [| by apply Hover].
  specialize (Hmle x Hx). lra.
Qed.


(** Lines 138-139 on a volume of numbers whose range does not overflow:
    the normalised volume of the rationals, or nan everywhere when the
    divisor is 0. *)
Lemma normalize_fp_finite (fmax : Q) (imq : vol3 Q) :
  1 <= fmax ->
  (forall x y, In x (flatten3 imq) -> In y (flatten3 imq) -> x - y <= fmax) ->
  normalize_fp fmax (map3 Fp.Fin imq) =
  match normalize imq with
  | inr v => inr (map3 Fp.Fin v)
  | inl DivisionByZero => inr (map3 (fun _ => Fp.NaN) imq)
  | inl e => inl e
  end.
Proof.
  intros Hmax Hover. unfold normalize_fp, normalize.
  rewrite subtract_min_fp_finite by done. unfold subtract_min.
  destruct (Num.np_min (flatten3 imq)) as [m|] eqn:Hm; simpl; [| done].
  destruct (subtract_min_spec imq m Hm) as (Hnn & _ & _).
  set (im1 := map3 (fun x => Num.sub x m) imq) in *.
  rewrite flatten3_map3, np_max_Fin.
  destruct (Num.np_max (flatten3 im1)) as [M|] eqn:HM; simpl; [| done].
  destruct (np_max_spec _ _ HM) as [HMin HMle].
  pose proof (Hnn M HMin) as HM0. rewrite map3_map3.
  destruct (Qeq_bool M 0) eqn:E0.
  - apply Qeq_bool_iff in E0. f_equal.
    transitivity (map3 (fun _ : Q => Fp.NaN) im1).
    + apply map3_ext_in. intros x Hx. apply fp_div_zero_by_zero; [| done].
      specialize (Hnn x Hx). specialize (HMle x Hx). lra.
    + unfold im1. by rewrite map3_map3.
  - assert (HMpos : 0 < M).
    { assert (~ M == 0) by (rewrite <- Qeq_bool_iff; congruence). lra. }
    f_equal. rewrite map3_map3. apply map3_ext_in. intros x Hx.
    specialize (Hnn x Hx). specialize (HMle x Hx).
    apply fp_div_finite; [lra | |].
    + apply Qle_shift_div_l; [done | lra].
    + apply Qle_trans with 1; [| done].
      apply Qle_shift_div_r; [done | lra].
Qed.

(** Lines 128-129 on a volume of numbers: the clipping of the rationals. *)
Lemma ct_clip_fp_finite (imq : vol3 Q) :
  ct_clip_fp (map3 Fp.Fin imq) = map3 Fp.Fin (ct_clip imq).
Proof.
  unfold ct_clip_fp, ct_clip, masked_assign_fp, masked_assign.
  rewrite !map3_map3. apply map3_ext. intros x.
  unfold Fp.gtb, Num.gtb. cbn [Fp.ltb]. fold (Num.ltb x 0).
  destruct (Num.ltb x 0); [reflexivity |].
  cbn [Fp.ltb]. fold (Num.ltb 80 x). by destruct (Num.ltb 80 x).
Qed.

(** Lines 157-159 on a number: the entry of the rationals, for every float
    type that holds 128. *)
Lemma rescale_and_clip_fp_finite (fmax x : Q) :
  128 <= fmax ->
  rescale_and_clip_fp fmax (Fp.Fin x) = Fp.Fin (rescale_and_clip x).
Proof.
  intros Hmax. unfold rescale_and_clip_fp, rescale_and_clip.
  cbn [Fp.mul]. unfold Fp.of_exact. pose proof (mul255_reduced x) as E.
  destruct (Qle_bool (Qabs (255 * x)) fmax) eqn:Eabs.
  - fold (Num.mul 255 x). unfold Fp.gtb, Num.gtb. cbn [Fp.ltb].
    fold (Num.ltb (Num.mul 255 x) 0).
    destruct (Num.ltb (Num.mul 255 x) 0); [reflexivity |].
    cbn [Fp.ltb]. fold (Num.ltb 128 (Num.mul 255 x)).
    by destruct (Num.ltb 128 (Num.mul 255 x)).
  - assert (Hbig : fmax < Qabs (255 * x)).
    { apply Qnot_le_lt. rewrite <- Qle_bool_iff. congruence. }
    destruct (Qle_bool 0 (255 * x)) eqn:Esgn.
    + apply Qle_bool_iff in Esgn. rewrite Qabs_pos in Hbig by done.
      assert (Num.ltb (Num.mul 255 x) 0 = false) as -> by (apply ltb_ge; lra).
      assert (Num.gtb (Num.mul 255 x) 128 = true) as ->
        by (apply gtb_gt; lra).
      reflexivity.
    + assert (Hneg : 255 * x < 0).
      { apply Qnot_le_lt. rewrite <- Qle_bool_iff. congruence. }
      assert (Num.ltb (Num.mul 255 x) 0 = true) as -> by (apply ltb_lt; lra).
      reflexivity.
Qed.






Lemma at3_masked_assign_fp (mask : Fp.value -> bool) (c : Fp.value)
    (v : vol3 Fp.value) (i j k : nat) :
  at3 (masked_assign_fp mask c v) i j k =
  (fun x => if mask x then c else x) <$> at3 v i j k.
Proof. apply at3_map3. Qed.

(** What lines 128-129 make of one entry. *)
Lemma ct_clip_fp_entry (x : Fp.value) :
  let y := (fun x => if Fp.gtb x (Fp.Fin 80) then Fp.Fin 80 else x)
             ((fun x => if Fp.ltb x (Fp.Fin 0) then Fp.Fin 0 else x) x) in
  match x with
  | Fp.NaN => y = Fp.NaN
  | Fp.PInf => y = Fp.Fin 80
  | Fp.NInf => y = Fp.Fin 0
  | Fp.Fin q =>
      Fp.within 0 80 y /\
      (q < 0 -> y = Fp.Fin 0) /\ (80 < q -> y = Fp.Fin 80) /\
      (0 <= q <= 80 -> y = x)
  end.
Proof.
  destruct x as [q| | |]; try reflexivity. cbv zeta beta.
  unfold Fp.gtb. cbn [Fp.ltb]. fold (Num.ltb q 0).
  destruct (Num.ltb q 0) eqn:Elt.
  - apply ltb_lt in Elt. cbn. repeat split; try lra; intros; try done; lra.
  - apply ltb_ge in Elt. cbn [Fp.ltb]. fold (Num.ltb 80 q).
    destruct (Num.ltb 80 q) eqn:Egt.
    + apply ltb_lt in Egt. cbn. repeat split; try lra; intros; try done; lra.
    + apply ltb_ge in Egt. cbn. repeat split; try lra; intros; try done; lra.
Qed.

(** C7. CT clipping (lines 126-129).  With [--ct] every entry of the
    loaded volume that is not nan is clamped into [0, 80] before the volume
    goes to [resample_volume]: entries below 0, minus infinity among them,
    become 0, entries above 80, infinity among them, become 80, the others
    stay; an entry that is nan stays nan; no entry is added or dropped.
    Without [--ct] the volume goes to [resample_volume] as loaded. *)
Theorem ct_clipping_of_numbers (args : arguments) (im : vol3 Fp.value) :
  (ct args = false -> volume_for_resampling_fp args im = im) /\
  (ct args = true ->
   forall i j k,
     match at3 im i j k with
     | None => at3 (volume_for_resampling_fp args im) i j k = None
     | Some x =>
         exists y, at3 (volume_for_resampling_fp args im) i j k = Some y /\
           match x with
           | Fp.NaN => y = Fp.NaN
           | Fp.PInf => y = Fp.Fin 80
           | Fp.NInf => y = Fp.Fin 0
           | Fp.Fin q =>
               Fp.within 0 80 y /\
               (q < 0 -> y = Fp.Fin 0) /\ (80 < q -> y = Fp.Fin 80) /\
               (0 <= q <= 80 -> y = x)
           end
     end).
Proof.
  unfold volume_for_resampling_fp. split; intros ->; [done |].
  intros i j k. unfold ct_clip_fp. rewrite !at3_masked_assign_fp.
  destruct (at3 im i j k) as [x|]; simpl; [| done].
  eexists. split; [reflexivity |]. apply ct_clip_fp_entry.
Qed.

Lemma ct_clipping_of_numbers_witness :
  let args := parse_args (Toy.folder_run false true false) in
  let im := [[[Fp.Fin 0; Fp.Fin 100]]; [[Fp.Fin (-20); Fp.NaN]]] in
  at3 (volume_for_resampling_fp args im) 0 0 1 = Some (Fp.Fin 80) /\
  at3 (volume_for_resampling_fp args im) 1 0 0 = Some (Fp.Fin 0) /\
  at3 (volume_for_resampling_fp args im) 1 0 1 = Some Fp.NaN /\
  volume_for_resampling_fp (parse_args (Toy.folder_run false false false)) im
    = im.
Proof.
  intros args im.
  pose proof (ct_clipping_of_numbers args im) as [_ Hct].
  pose proof (ct_clipping_of_numbers
                (parse_args (Toy.folder_run false false false)) im)
    as [Hno _].
  split; [| split; [| split]].
  - destruct (Hct eq_refl 0%nat 0%nat 1%nat) as (y & Hy & _ & _ & Hhi & _).
    rewrite Hy. f_equal. apply Hhi. reflexivity.
  - destruct (Hct eq_refl 1%nat 0%nat 0%nat) as (y & Hy & _ & Hlo & _).
    rewrite Hy. f_equal. apply Hlo. reflexivity.
  - destruct (Hct eq_refl 1%nat 0%nat 1%nat) as (y & Hy & Hnan).
    rewrite Hy. f_equal. exact Hnan.
  - apply Hno. reflexivity.
Defined.

(** Not every entry is clamped into [0, 80]: both masks are false on an
    entry that is nan, and it stays. *)
Lemma ct_clipping_counterexample :
  let args := parse_args (Toy.folder_run false true false) in
  let im := [[[Fp.NaN; Fp.Fin 100]]] in
  ct args = true /\
  at3 im 0 0 0 = Some Fp.NaN /\
  at3 (volume_for_resampling_fp args im) 0 0 0 = Some Fp.NaN /\
  ~ Fp.within 0 80 Fp.NaN.
Proof. cbv zeta. repeat split. intros []. Qed.

(** X3. Normalisation of a volume of numbers that are not all equal and
    whose range does not overflow keeps the shape of the volume and puts
    every entry into [0, 1]. *)
Theorem normalized_volume_shape_and_range (fmax : Q) (imq : vol3 Q)
    (x y : Q) :
  1 <= fmax ->
  (forall x y, In x (flatten3 imq) -> In y (flatten3 imq) -> x - y <= fmax) ->
  In x (flatten3 imq) -> In y (flatten3 imq) -> ~ x == y ->
  exists v,
    normalize_fp fmax (map3 Fp.Fin imq) = inr v /\
    (forall d0 d1 d2, has_shape3 d0 d1 d2 imq -> has_shape3 d0 d1 d2 v) /\
    Forall (Fp.within 0 1) (flatten3 v).
Proof.
  intros Hmax Hover Hx Hy Hxy.
  destruct (proj1 (normalize_cases imq) x y Hx Hy Hxy) as (v & Hv & _).
  destruct (normalize_shape_and_range _ _ Hv) as [Hshape Hrange].
  exists (map3 Fp.Fin v). rewrite normalize_fp_finite, Hv by done.
  split; [done |]. split.
  - intros d0 d1 d2 Hs. by apply has_shape3_map3, Hshape.
  - rewrite flatten3_map3. by apply List.Forall_map.
Qed.

Lemma normalized_volume_shape_and_range_witness :
  exists v,
    normalize_fp Fp.float64_max (map3 Fp.Fin Toy.image_a) = inr v /\
    has_shape3 1 2 2 v /\ Forall (Fp.within 0 1) (flatten3 v).
Proof.
  destruct (normalized_volume_shape_and_range Fp.float64_max Toy.image_a 1 3)
    as (v & Hv & Hshape & Hrange).
  - vm_compute. discriminate.
  - simpl. intros x y Hx Hy.
    repeat (destruct Hx as [<- | Hx]); try contradiction;
    repeat (destruct Hy as [<- | Hy]); try contradiction;
    vm_compute; discriminate.
  - simpl. auto.
  - simpl. auto.
  - discriminate.
  - exists v. split; [exact Hv |]. split; [| exact Hrange].
    apply Hshape. split; [reflexivity | repeat constructor].
Defined.

(** X4. Normalising again a volume normalised under the same conditions
    changes nothing. *)
Theorem normalized_volume_is_fixed (fmax : Q) (imq : vol3 Q) (x y : Q) :
  1 <= fmax ->
  (forall x y, In x (flatten3 imq) -> In y (flatten3 imq) -> x - y <= fmax) ->
  In x (flatten3 imq) -> In y (flatten3 imq) -> ~ x == y ->
  exists v,
    normalize_fp fmax (map3 Fp.Fin imq) = inr v /\
    normalize_fp fmax v = inr v.
Proof.
  intros Hmax Hover Hx Hy Hxy.
  destruct (proj1 (normalize_cases imq) x y Hx Hy Hxy) as (v & Hv & _).
  destruct (normalize_shape_and_range _ _ Hv) as [_ Hrange].
  exists (map3 Fp.Fin v). rewrite normalize_fp_finite, Hv by done.
  split; [done |].
  rewrite normalize_fp_finite, (normalize_idempotent _ _ Hv); [done.. |].
  rewrite List.Forall_forall in Hrange. intros a b Ha Hb.
  destruct (Hrange a Ha) as [_ Ha1]. destruct (Hrange b Hb) as [Hb0 _]. lra.
Qed.

Lemma normalized_volume_is_fixed_witness :
  exists v,
    normalize_fp Fp.float64_max (map3 Fp.Fin Toy.image_a) = inr v /\
    normalize_fp Fp.float64_max v = inr v.
Proof.
  apply (normalized_volume_is_fixed Fp.float64_max Toy.image_a 1 3).
  - vm_compute. discriminate.
  - simpl. intros x y Hx Hy.
    repeat (destruct Hx as [<- | Hx]); try contradiction;
    repeat (destruct Hy as [<- | Hy]); try contradiction;
    vm_compute; discriminate.
  - simpl. auto.
  - simpl. auto.
  - discriminate.
Defined.

Lemma map3_id {A : Type} (v : vol3 A) : map3 (fun x => x) v = v.
Proof.
  unfold map3. rewrite <- (map_id v) at 2. apply map_ext. intros p.
  rewrite <- (map_id p) at 2. apply map_ext. intros r. apply map_id.
Qed.

(** A volume with entries, all of them the same number, is nan everywhere
    after lines 138-139. *)
Lemma normalize_fp_flat (fmax c : Q) (im : vol3 Fp.value) :
  1 <= fmax -> flatten3 im <> [] ->
  (forall x, In x (flatten3 im) -> exists q, x = Fp.Fin q /\ q == c) ->
  normalize_fp fmax im = inr (map3 (fun _ => Fp.NaN) im).
Proof.
  intros Hmax Hne Hflat.
  set (g := fun x => match x with Fp.Fin q => q | _ => c end).
  assert (E : im = map3 Fp.Fin (map3 g im)).
  { rewrite map3_map3. rewrite <- (map3_id im) at 1. apply map3_ext_in.
    intros x Hx. by destruct (Hflat x Hx) as (q & -> & _). }
  assert (Hc : forall q, In q (flatten3 (map3 g im)) -> q == c).
  { intros q Hq. rewrite flatten3_map3 in Hq.
    apply in_map_iff in Hq as (x & <- & Hx).
    by destruct (Hflat x Hx) as (q & -> & Hq). }
  rewrite E at 1. rewrite normalize_fp_finite.
  - rewrite normalize_constant; [by rewrite map3_map3 | |].
    + rewrite flatten3_map3. by destruct (flatten3 im).
    + intros x y Hx Hy. by rewrite (Hc x Hx), (Hc y Hy).
  - done.
  - intros x y Hx Hy. rewrite (Hc x Hx), (Hc y Hy). lra.
Qed.

(** X7. A volume whose intensities all lie at or above 80, or all at or
    below 0, is flat after CT clipping, and the normalisation of the flat
    volume divides 0 by 0: it returns a volume that is nan everywhere, and
    no error is raised. *)
Theorem ct_saturated_volume_is_nan (fmax : Q) (im : vol3 Fp.value) :
  1 <= fmax -> flatten3 im <> [] ->
  Forall (fun x => x = Fp.PInf \/ exists q, x = Fp.Fin q /\ 80 <= q)
         (flatten3 im) \/
  Forall (fun x => x = Fp.NInf \/ exists q, x = Fp.Fin q /\ q <= 0)
         (flatten3 im) ->
  normalize_fp fmax (ct_clip_fp im) = inr (map3 (fun _ => Fp.NaN) im).
Proof.
  intros Hmax Hne Hsat.
  set (clip := fun x =>
         (fun x => if Fp.gtb x (Fp.Fin 80) then Fp.Fin 80 else x)
           ((fun x => if Fp.ltb x (Fp.Fin 0) then Fp.Fin 0 else x) x)).
  assert (E : ct_clip_fp im = map3 clip im).
  { unfold ct_clip_fp, masked_assign_fp. by rewrite map3_map3. }
  assert (Hflat : exists c, forall y, In y (flatten3 (ct_clip_fp im)) ->
                    exists q, y = Fp.Fin q /\ q == c).
  { rewrite E, flatten3_map3. destruct Hsat as [Hhi | Hlo].
    - exists 80. intros y Hy. apply in_map_iff in Hy as (x & <- & Hx).
      rewrite List.Forall_forall in Hhi.
      pose proof (ct_clip_fp_entry x) as Hclip.
      cbv beta zeta in Hclip. cbv beta delta [clip].
      destruct (Hhi x Hx) as [-> | (q & -> & Hq)].
      + exists 80. by rewrite Hclip.
      + destruct Hclip as (_ & _ & Hgt & Hin).
        destruct (Qlt_le_dec 80 q) as [Hlt | Hle].
        * exists 80. by rewrite Hgt.
        * exists q. rewrite Hin by lra. split; [done | lra].
    - exists 0. intros y Hy. apply in_map_iff in Hy as (x & <- & Hx).
      rewrite List.Forall_forall in Hlo.
      pose proof (ct_clip_fp_entry x) as Hclip.
      cbv beta zeta in Hclip. cbv beta delta [clip].
      destruct (Hlo x Hx) as [-> | (q & -> & Hq)].
      + exists 0. by rewrite Hclip.
      + destruct Hclip as (_ & Hlt & _ & Hin).
        destruct (Qlt_le_dec q 0) as [Hneg | Hge].
        * exists 0. by rewrite Hlt.
        * exists q. rewrite Hin by lra. split; [done | lra]. }
  destruct Hflat as [c Hc].
  rewrite (normalize_fp_flat fmax c) by
    (try done; rewrite E, flatten3_map3; by destruct (flatten3 im)).
  by rewrite E, map3_map3.
Qed.

Lemma ct_saturated_volume_is_nan_witness :
  normalize_fp Fp.float64_max
    (ct_clip_fp [[[Fp.Fin 100; Fp.Fin 250]; [Fp.Fin 81; Fp.PInf]]])
  = inr [[[Fp.NaN; Fp.NaN]; [Fp.NaN; Fp.NaN]]].
Proof.
  apply (ct_saturated_volume_is_nan Fp.float64_max
           [[[Fp.Fin 100; Fp.Fin 250]; [Fp.Fin 81; Fp.PInf]]]).
  - vm_compute. discriminate.
  - discriminate.
  - left. simpl.
    repeat (apply List.Forall_cons;
            [first [by left
                   | right; eexists; split;
                     [reflexivity | vm_compute; discriminate]] |]).
    apply List.Forall_nil.
Defined.

(** What lines 157-159 make of one entry of the network's output: nan of
    nan, a number of [0, 128] of everything else. *)
Lemma rescale_and_clip_fp_spec (fmax : Q) (x : Fp.value) :
  match x with
  | Fp.NaN => rescale_and_clip_fp fmax x = Fp.NaN
  | _ => Fp.within 0 128 (rescale_and_clip_fp fmax x)
  end.
Proof.
  destruct x as [q| | |];
    [| vm_compute; split; discriminate.. | reflexivity].
  unfold rescale_and_clip_fp. cbn [Fp.mul]. unfold Fp.of_exact.
  destruct (Qle_bool (Qabs (255 * q)) fmax).
  - unfold Fp.gtb. cbn [Fp.ltb]. fold (Num.mul 255 q).
    fold (Num.ltb (Num.mul 255 q) 0). fold (Num.ltb 128 (Num.mul 255 q)).
    destruct (Num.ltb (Num.mul 255 q) 0) eqn:Elt;
      [vm_compute; split; discriminate |].
    destruct (Num.ltb 128 (Num.mul 255 q)) eqn:Egt;
      [vm_compute; split; discriminate |].
    apply ltb_ge in Elt, Egt. by split.
  - destruct (Qle_bool 0 (255 * q)); vm_compute; split; discriminate.
Qed.

(** X8. The prediction that is saved is entry by entry that of the
    network, rescaled and clipped: an entry the network returns as nan is
    nan, every other entry lies in [0, 128]. *)
Theorem prediction_range_of_numbers {A : Type} (fmax : Q) (im : vol3 A)
    (output : tensor5 Fp.value) :
  postprocess_fp fmax im output =
    crop_to_input im (map3 (rescale_and_clip_fp fmax) (np_squeeze output)) /\
  (forall x, match x with
             | Fp.NaN => rescale_and_clip_fp fmax x = Fp.NaN
             | _ => Fp.within 0 128 (rescale_and_clip_fp fmax x)
             end) /\
  Forall (fun x => x = Fp.NaN \/ Fp.within 0 128 x)
         (flatten3 (postprocess_fp fmax im output)).
Proof.
  assert (E : postprocess_fp fmax im output =
              crop_to_input im
                (map3 (rescale_and_clip_fp fmax) (np_squeeze output))).
  { unfold postprocess_fp, masked_assign_fp. rewrite !map3_map3. f_equal.
    apply map3_ext. intros x. unfold rescale_and_clip_fp. simpl.
    by destruct (Fp.ltb _ _). }
  split; [exact E |]. split; [apply rescale_and_clip_fp_spec |].
  rewrite E. unfold flatten3, crop_to_input.
  destruct (spatial_shape _) as [[d0 d1] d2].
  destruct (pad_offsets _) as [[i0 i1] i2].
  do 2 apply Forall_concat. apply Forall3_crop3, Forall3_map3.
  intros x. pose proof (rescale_and_clip_fp_spec fmax x) as H.
  destruct x; auto.
Qed.
